(** * Swap-or-not shuffling, attestation store, fork choice and state
      regeneration of the beacon chain: a shallow embedding and its properties.

    The shuffling code is [beacon-chain/utils/shuffle.go].  Unsigned machine
    integers are [Z] with the wrap-around written out, bytes are [Z] in
    [0, 256), byte slices and index lists are [list Z]. *)

From Stdlib Require Import ZArith Lia List Bool.
From stdpp Require Import base option list gmap.
Import ListNotations.

Local Open Scope Z_scope.

(** ** Machine integers *)

Definition wrap8 (z : Z) : Z := z mod 2 ^ 8.
Definition wrap32 (z : Z) : Z := z mod 2 ^ 32.
Definition wrap64 (z : Z) : Z := z mod 2 ^ 64.

(** ** Byte slices *)

(** [copy(dst[off:], src)]: overwrites [min (len dst - off) (len src)]
    elements of [dst] from offset [off] on. *)
Definition copy_at (off : nat) (src dst : list Z) : list Z :=
  take off dst ++ take (length dst - off) src ++ drop (off + length src) dst.

(** Little-endian bytes of [x], [n] of them. *)
Definition le_bytes (n : nat) (x : Z) : list Z :=
  map (fun k => Z.land (Z.shiftr x (8 * Z.of_nat k)) 255) (seq 0 n).

(** [binary.LittleEndian.PutUint32(dst[off:], v)] *)
Definition PutUint32 (off : nat) (v : Z) (dst : list Z) : list Z :=
  copy_at off (le_bytes 4 v) dst.

(** Modelled from the spec: [bytesutil.FromBytes8] is not among the sources;
    "the first 8 bytes of a hash ... interpreted as a 64-bit integer", read
    little-endian as [encoding/binary.LittleEndian] does in the list path. *)
Definition FromBytes8 (x : list Z) : Z :=
  fold_right (fun b acc => b + 256 * acc) 0 (take 8 x).

(** Modelled from the spec: [bytesutil.ToBytes] is not among the sources;
    "position >> 8 as 4-byte field": the low [length] bytes of [x],
    little-endian. *)
Definition ToBytes (x : Z) (length : nat) : list Z := le_bytes length x.

(** ** SHA-256 (FIPS 180-4), the hash behind [hashutil.HashSha256]

    Used to evaluate the shuffling on concrete inputs; the general theorems
    hold for any hash function. *)
Module SHA256.

(** The round constants and the initial hash value are the first 32 bits
    of the fractional parts of the cube roots, respectively square roots, of
    the first primes. *)
Definition is_prime (n : nat) : bool :=
  forallb (fun d => negb (n mod d =? 0)%nat) (seq 2 (n - 2)).

Definition primes : list Z :=
  map Z.of_nat (filter (fun n => is_prime n = true) (seq 2 310)).

(** The integer cube root, bit by bit from bit [n - 1] down. *)
Fixpoint cube_root_bits (n : nat) (x r : Z) : Z :=
  match n with
  | O => r
  | S n' =>
      let c := r + 2 ^ Z.of_nat n' in
      cube_root_bits n' x (if c * c * c <=? x then c else r)
  end.

Definition K : list Z :=
  map (fun p => wrap32 (cube_root_bits 40 (p * 2 ^ 96) 0)) primes.

Definition H0 : list Z :=
  map (fun p => wrap32 (Z.sqrt (p * 2 ^ 64))) (take 8 primes).

Definition rotr (n x : Z) : Z :=
  Z.lor (Z.shiftr x n) (wrap32 (Z.shiftl x (32 - n))).

Definition Ch (x y z : Z) : Z :=
  Z.lxor (Z.land x y) (Z.land (Z.lxor x (2 ^ 32 - 1)) z).
Definition Maj (x y z : Z) : Z :=
  Z.lxor (Z.lxor (Z.land x y) (Z.land x z)) (Z.land y z).
Definition Sigma0 (x : Z) : Z := Z.lxor (Z.lxor (rotr 2 x) (rotr 13 x)) (rotr 22 x).
Definition Sigma1 (x : Z) : Z := Z.lxor (Z.lxor (rotr 6 x) (rotr 11 x)) (rotr 25 x).
Definition sigma0 (x : Z) : Z := Z.lxor (Z.lxor (rotr 7 x) (rotr 18 x)) (Z.shiftr x 3).
Definition sigma1 (x : Z) : Z := Z.lxor (Z.lxor (rotr 17 x) (rotr 19 x)) (Z.shiftr x 10).

(** Big-endian word of four bytes. *)
Definition be_word (b : list Z) : Z :=
  fold_left (fun acc x => 256 * acc + x) (take 4 b) 0.

Fixpoint words (n : nat) (b : list Z) : list Z :=
  match n with
  | O => []
  | S n' => be_word b :: words n' (drop 4 b)
  end.

(** The message schedule, most recent word first. *)
Fixpoint schedule (n : nat) (w : list Z) : list Z :=
  match n with
  | O => w
  | S n' =>
      let x := wrap32 (sigma1 (nth 1 w 0) + nth 6 w 0 + sigma0 (nth 14 w 0) + nth 15 w 0) in
      schedule n' (x :: w)
  end.

Definition round (st : list Z) (kw : Z * Z) : list Z :=
  match st with
  | [a; b; c; d; e; f; g; h] =>
      let t1 := h + Sigma1 e + Ch e f g + fst kw + snd kw in
      let t2 := Sigma0 a + Maj a b c in
      [wrap32 (t1 + t2); a; b; c; wrap32 (d + t1); e; f; g]
  | _ => st
  end.

Definition compress (h : list Z) (block : list Z) : list Z :=
  let w := rev (schedule 48 (rev (words 16 block))) in
  let st := fold_left round (combine K w) h in
  map (fun p => wrap32 (fst p + snd p)) (combine h st).

Definition be_bytes (n : nat) (x : Z) : list Z := rev (le_bytes n x).

Definition pad (msg : list Z) : list Z :=
  let l := length msg in
  let z := ((64 - (l + 9) mod 64) mod 64)%nat in
  msg ++ [0x80] ++ repeat 0 z ++ be_bytes 8 (8 * Z.of_nat l).

Fixpoint blocks (n : nat) (h : list Z) (b : list Z) : list Z :=
  match n with
  | O => h
  | S n' => blocks n' (compress h (take 64 b)) (drop 64 b)
  end.

Definition Sum256 (msg : list Z) : list Z :=
  let p := pad msg in
  flat_map (be_bytes 4) (blocks (length p / 64)%nat H0 p).

End SHA256.

(** ** Results of fallible operations *)

(** The two errors of [shuffle.go], both built by [fmt.Errorf]. *)
Inductive BoundsError : Type :=
  | IndexOutOfBounds (index indexCount : Z)
  | ListSizeOutOfBounds (size : Z).

(** What a call ends in: a value, an error value, a run-time panic
    (division by zero, index out of range), or, for the model only, a loop
    that was cut off. *)
Inductive result (A : Type) : Type :=
  | Ok (a : A)
  | Err (e : BoundsError)
  | Panic
  | OutOfFuel.
Arguments Ok {A} a.
Arguments Err {A} e.
Arguments Panic {A}.
Arguments OutOfFuel {A}.

(** ** shuffle.go *)

Definition seedSize : nat := 32.
Definition roundSize : nat := 1.
Definition positionWindowSize : nat := 4.
Definition pivotViewSize : nat := seedSize + roundSize.
Definition totalSize : nat := seedSize + roundSize + positionWindowSize.

Definition maxShuffleListSize : Z := 2 ^ 40.

(** [SplitOffset]: [(listSize * index) / chunks] on [uint64]; a zero divisor
    panics. *)
Definition SplitOffset (listSize chunks index : Z) : option Z :=
  if chunks =? 0 then None else Some (wrap64 (listSize * index) / chunks).

(** [l[start:end]] on a slice whose capacity is its length: panics unless
    [start <= end <= len l]. *)
Definition slice (l : list Z) (start end_ : Z) : option (list Z) :=
  if (0 <=? start) && (start <=? end_) && (end_ <=? Z.of_nat (length l))
  then Some (take (Z.to_nat (end_ - start)) (drop (Z.to_nat start) l))
  else None.

(** The loop of [SplitIndices]; [fuel] bounds the iterations, [None] is a
    panic. *)
Fixpoint SplitIndices_loop (fuel : nat) (l : list Z) (n i : Z)
    (divided : list (list Z)) : option (list (list Z)) :=
  match fuel with
  | O => Some divided
  | S fuel' =>
      if i <? n then
        start ← SplitOffset (Z.of_nat (length l)) n i;
        end_ ← SplitOffset (Z.of_nat (length l)) n (wrap64 (i + 1));
        piece ← slice l start end_;
        SplitIndices_loop fuel' l n (wrap64 (i + 1)) (divided ++ [piece])
      else Some divided
  end.

Definition SplitIndices (l : list Z) (n : Z) : option (list (list Z)) :=
  SplitIndices_loop (Z.to_nat n) l n 0 [].

Section Shuffle.

(** [hashutil.HashSha256], a 32-byte digest of a byte slice. *)
Variable HashSha256 : list Z -> list Z.
(** [params.BeaconConfig().ShuffleRoundCount], a [uint64]. *)
Variable ShuffleRoundCount : Z.

(** One pass of the loop body of [innerShuffledIndex]: the buffer and the
    index after it, [None] when [% indexCount] divides by zero. *)
Definition shuffledIndex_body (buf : list Z) (round index indexCount : Z)
    : option (list Z * Z) :=
  let buf := <[seedSize := round]> buf in
  let hash := HashSha256 (take pivotViewSize buf) in
  let hash8 := take 8 hash in
  let hash8Int := FromBytes8 hash8 in
  if indexCount =? 0 then None else
  let pivot := hash8Int mod indexCount in
  let flip := wrap64 (wrap64 (pivot + indexCount) - index) mod indexCount in
  let position := if index <? flip then flip else index in
  let position4bytes := ToBytes (Z.shiftr position 8) 4 in
  let buf := copy_at pivotViewSize position4bytes buf in
  let source := HashSha256 buf in
  let byteV := nth (Z.to_nat (Z.shiftr (Z.land position 0xff) 3)) source 0 in
  let bitV := Z.land (Z.shiftr byteV (Z.land position 0x7)) 0x1 in
  Some (buf, if bitV =? 1 then flip else index).

(** The [for] loop of [innerShuffledIndex], at most [fuel] passes. *)
Fixpoint shuffledIndex_loop (fuel : nat) (shuffle : bool) (rounds round : Z)
    (buf : list Z) (index indexCount : Z) : result Z :=
  match fuel with
  | O => OutOfFuel
  | S fuel' =>
      match shuffledIndex_body buf round index indexCount with
      | None => Panic
      | Some (buf, index) =>
          if shuffle then
            let round := wrap8 (round + 1) in
            if round =? rounds then Ok index
            else shuffledIndex_loop fuel' shuffle rounds round buf index indexCount
          else
            if round =? 0 then Ok index
            else
              let round := wrap8 (round - 1) in
              shuffledIndex_loop fuel' shuffle rounds round buf index indexCount
      end
  end.

(** A [uint8] counter visits at most 256 values before it breaks. *)
Definition round_fuel : nat := 256.

Definition innerShuffledIndex (index indexCount : Z) (seed : list Z)
    (shuffle : bool) : result Z :=
  if ShuffleRoundCount =? 0 then Ok index
  else if indexCount <=? index then Err (IndexOutOfBounds index indexCount)
  else if maxShuffleListSize <? indexCount then Err (ListSizeOutOfBounds indexCount)
  else
    let rounds := wrap8 ShuffleRoundCount in
    let round := if shuffle then 0 else wrap8 (rounds - 1) in
    let buf := repeat 0 totalSize in
    let buf := copy_at 0 (take seedSize seed) buf in
    shuffledIndex_loop round_fuel shuffle rounds round buf index indexCount.

Definition ShuffledIndex (index indexCount : Z) (seed : list Z) : result Z :=
  innerShuffledIndex index indexCount seed true.

Definition UnShuffledIndex (index indexCount : Z) (seed : list Z) : result Z :=
  innerShuffledIndex index indexCount seed false.

(** The loop state of [innerShuffleList] that [swapOrNot] reads and writes:
    the hash buffer, the cached byte, the list and the cached digest. *)
Record sweep_state : Type := SweepState {
  ss_buf : list Z;
  ss_byteV : Z;
  ss_input : list Z;
  ss_source : list Z
}.

(** [swapOrNot]; [buf] and [input] are slices the caller shares, so the
    writes to them are part of the result.  [None] is an index out of range. *)
Definition swapOrNot (buf : list Z) (byteV : Z) (i : Z) (input : list Z)
    (j : Z) (source : list Z) : option sweep_state :=
  let '(buf, source) :=
    if Z.land j 0xff =? 0xff then
      let buf := PutUint32 pivotViewSize (wrap32 (Z.shiftr j 8)) buf in
      (buf, HashSha256 buf)
    else (buf, source) in
  let byteV :=
    if Z.land j 0x7 =? 0x7
    then nth (Z.to_nat (Z.shiftr (Z.land j 0xff) 3)) source 0
    else byteV in
  let bitV := Z.land (Z.shiftr byteV (Z.land j 0x7)) 0x1 in
  if bitV =? 1 then
    if (0 <=? i) && (0 <=? j) then
      x ← input !! Z.to_nat i;
      y ← input !! Z.to_nat j;
      Some (SweepState buf byteV (<[Z.to_nat j := x]> (<[Z.to_nat i := y]> input)) source)
    else None
  else Some (SweepState buf byteV input source).

(** [for i, j := i0, j0; i < mirror; i, j = i+1, j-1 { swapOrNot }] *)
Fixpoint sweep (fuel : nat) (mirror i j : Z) (st : sweep_state)
    : option sweep_state :=
  match fuel with
  | O => Some st
  | S fuel' =>
      if i <? mirror then
        st ← swapOrNot (ss_buf st) (ss_byteV st) i (ss_input st) j (ss_source st);
        sweep fuel' mirror (wrap64 (i + 1)) (wrap64 (j - 1)) st
      else Some st
  end.

(** One pass of the outer loop body of [innerShuffleList], up to the
    round-counter update. *)
Definition shuffleList_body (buf : list Z) (r : Z) (input : list Z)
    (listSize : Z) : option (list Z * list Z) :=
  let buf := <[seedSize := r]> buf in
  let ph := HashSha256 (take pivotViewSize buf) in
  if listSize =? 0 then None else
  let pivot := FromBytes8 (take 8 ph) mod listSize in
  let mirror := Z.shiftr (wrap64 (pivot + 1)) 1 in
  let buf := PutUint32 pivotViewSize (wrap32 (Z.shiftr pivot 8)) buf in
  let source := HashSha256 buf in
  let byteV := nth (Z.to_nat (Z.shiftr (Z.land pivot 0xff) 3)) source 0 in
  st ← sweep (Z.to_nat mirror) mirror 0 pivot (SweepState buf byteV input source);
  let mirror := Z.shiftr (wrap64 (wrap64 (pivot + listSize) + 1)) 1 in
  let end_ := wrap64 (listSize - 1) in
  let buf := PutUint32 pivotViewSize (wrap32 (Z.shiftr end_ 8)) (ss_buf st) in
  let source := HashSha256 buf in
  let byteV := nth (Z.to_nat (Z.shiftr (Z.land end_ 0xff) 3)) source 0 in
  st ← sweep (Z.to_nat (mirror - (pivot + 1))) mirror (wrap64 (pivot + 1)) end_
         (SweepState buf byteV (ss_input st) source);
  Some (ss_buf st, ss_input st).

Fixpoint shuffleList_loop (fuel : nat) (shuffle : bool) (rounds r : Z)
    (buf input : list Z) (listSize : Z) : result (list Z) :=
  match fuel with
  | O => OutOfFuel
  | S fuel' =>
      match shuffleList_body buf r input listSize with
      | None => Panic
      | Some (buf, input) =>
          if shuffle then
            let r := wrap8 (r + 1) in
            if r =? rounds then Ok input
            else shuffleList_loop fuel' shuffle rounds r buf input listSize
          else
            if r =? 0 then Ok input
            else
              let r := wrap8 (r - 1) in
              shuffleList_loop fuel' shuffle rounds r buf input listSize
      end
  end.

Definition innerShuffleList (input : list Z) (seed : list Z) (shuffle : bool)
    : result (list Z) :=
  if (length input <=? 1)%nat then Ok input
  else if maxShuffleListSize <? Z.of_nat (length input)
  then Err (ListSizeOutOfBounds (Z.of_nat (length input)))
  else
    let rounds := wrap8 ShuffleRoundCount in
    if rounds =? 0 then Ok input
    else
      let listSize := Z.of_nat (length input) in
      let buf := repeat 0 totalSize in
      let r := if shuffle then 0 else wrap8 (rounds - 1) in
      let buf := copy_at 0 (take seedSize seed) buf in
      shuffleList_loop round_fuel shuffle rounds r buf input listSize.

Definition ShuffleList (input seed : list Z) : result (list Z) :=
  innerShuffleList input seed true.

Definition UnshuffleList (input seed : list Z) : result (list Z) :=
  innerShuffleList input seed false.

End Shuffle.


(** ** Reference definitions the properties are stated against *)

(** The offset the comment of [SplitOffset] promises, in exact arithmetic. *)
Definition exact_offset (listSize chunks index : Z) : Z :=
  listSize * index / chunks.

(** [L[exact_offset i : exact_offset (i+1)]] *)
Definition split_piece (l : list Z) (chunks i : Z) : list Z :=
  let len := Z.of_nat (length l) in
  take (Z.to_nat (exact_offset len chunks (i + 1) - exact_offset len chunks i))
       (drop (Z.to_nat (exact_offset len chunks i)) l).

(** The hash inputs of a round, as the comment of [innerShuffledIndex]
    spells them: [seed + round] and [seed + round + position // 256]. *)
Definition pivot_input (seed : list Z) (r : Z) : list Z := seed ++ [r].
Definition source_input (seed : list Z) (r position : Z) : list Z :=
  seed ++ [r] ++ le_bytes 4 (Z.shiftr position 8).

Section RoundMap.

Variable HashSha256 : list Z -> list Z.
Variable seed : list Z.
Variable indexCount : Z.

(** [bytes_to_int(hash(seed + round)[0:8]) % index_count] *)
Definition round_pivot (r : Z) : Z :=
  FromBytes8 (take 8 (HashSha256 (pivot_input seed r))) mod indexCount.

(** The bit of [hash(seed + round + position // 256)] that decides the pair
    whose larger member is [position]. *)
Definition round_bit (r position : Z) : Z :=
  let source := HashSha256 (source_input seed r position) in
  let byteV := nth (Z.to_nat (Z.shiftr (Z.land position 0xff) 3)) source 0 in
  Z.land (Z.shiftr byteV (Z.land position 0x7)) 0x1.

(** One round of swap-or-not on one index. *)
Definition round_map (r index : Z) : Z :=
  let pivot := round_pivot r in
  let flip := (pivot + indexCount - index) mod indexCount in
  let position := Z.max index flip in
  if round_bit r position =? 1 then flip else index.

(** The rounds applied in the order of the list. *)
Definition apply_rounds (rs : list Z) (index : Z) : Z :=
  fold_left (fun i r => round_map r i) rs index.

End RoundMap.

(** The hash buffer between passes: 37 bytes that start with the seed. *)
Definition buf_ok (seed buf : list Z) : Prop :=
  length buf = 37%nat /\ take 32 buf = seed.

(** The hash buffer inside round [r]: 37 bytes that start with the seed and
    the round. *)
Definition buf_round (seed : list Z) (r : Z) (buf : list Z) : Prop :=
  length buf = 37%nat /\ take 33 buf = pivot_input seed r.

(** What [swapOrNot] relies on when it is called with [j]: the digest is the
    one of [j]'s 256-window unless [j] opens a new window, and the byte is
    the one of [j]'s 8-window unless [j] opens a new one. *)
Definition cache_ok (HashSha256 : list Z -> list Z) (seed : list Z)
    (r j : Z) (st : sweep_state) : Prop :=
  buf_round seed r (ss_buf st) /\
  (Z.land j 0xff <> 0xff ->
   ss_source st = HashSha256 (source_input seed r j)) /\
  (Z.land j 0x7 <> 0x7 ->
   ss_byteV st
   = nth (Z.to_nat (Z.shiftr (Z.land j 0xff) 3))
         (HashSha256 (source_input seed r j)) 0).

(** What [swapOrNot] leaves behind after it was called with [j]. *)
Definition cache_full (HashSha256 : list Z -> list Z) (seed : list Z)
    (r j : Z) (st : sweep_state) : Prop :=
  buf_round seed r (ss_buf st) /\
  ss_source st = HashSha256 (source_input seed r j) /\
  ss_byteV st
  = nth (Z.to_nat (Z.shiftr (Z.land j 0xff) 3))
        (HashSha256 (source_input seed r j)) 0.

(** The transposition of [i] and [j]. *)
Definition transpose (i j x : Z) : Z :=
  if x =? i then j else if x =? j then i else x.

(** The index map of a sweep over the pairs [(x, c - x)] for [lo <= x < hi]:
    a pair is exchanged when the bit of its larger member is set. *)
Definition sweep_map (bit : Z -> Z) (c lo hi x : Z) : Z :=
  if ((lo <=? x) && (x <? hi)) || ((c - hi <? x) && (x <=? c - lo))
  then (if bit (Z.max x (c - x)) =? 1 then c - x else x)
  else x.

(** What the passes over the rounds [rs], in that order, do to the list:
    position [x] receives the element that was at the image of [x] under
    the rounds taken in reverse. *)
Definition list_rounds_spec (HashSha256 : list Z -> list Z) (seed : list Z)
    (rs : list Z) (input out : list Z) : Prop :=
  length out = length input /\
  forall x : nat, (x < length input)%nat ->
    out !! x
    = input !! Z.to_nat
        (apply_rounds HashSha256 seed (Z.of_nat (length input)) (rev rs)
           (Z.of_nat x)).

(** How many passes the round loops make: the [uint8] counter breaks when it
    meets [uint8(ShuffleRoundCount)], after a full cycle when that is zero. *)
Definition round_passes (ShuffleRoundCount : Z) : nat :=
  if wrap8 ShuffleRoundCount =? 0 then 256%nat
  else Z.to_nat (wrap8 ShuffleRoundCount).

(** The rounds [0, 1, ..., passes - 1]. *)
Definition rounds_up (ShuffleRoundCount : Z) : list Z :=
  map Z.of_nat (seq 0 (round_passes ShuffleRoundCount)).

(** The identity list [0, 1, ..., n - 1]. *)
Definition identity_list (n : nat) : list Z := map Z.of_nat (seq 0 n).

(** The rounds [innerShuffledIndex] applies, in order: none when the
    configured count is zero. *)
Definition index_passes (ShuffleRoundCount : Z) (shuffle : bool) : list Z :=
  if ShuffleRoundCount =? 0 then []
  else if shuffle then rounds_up ShuffleRoundCount
  else rev (rounds_up ShuffleRoundCount).

(** The rounds [innerShuffleList] passes over, in order: none when the low
    byte of the configured count is zero. *)
Definition list_passes (ShuffleRoundCount : Z) (shuffle : bool) : list Z :=
  if wrap8 ShuffleRoundCount =? 0 then []
  else if shuffle then rounds_up ShuffleRoundCount
  else rev (rounds_up ShuffleRoundCount).

(** ** beacon-chain/db/validator.go *)

(** [encoding/binary.MaxVarintLen64] *)
Definition MaxVarintLen64 : nat := 10.

(** The loop of [encoding/binary.PutUvarint] and the write after it; [None]
    is an index out of range. *)
Fixpoint PutUvarint_loop (fuel : nat) (buf : list Z) (x : Z) (i : nat)
    : option (list Z * nat) :=
  match fuel with
  | O => None
  | S fuel' =>
      if 0x80 <=? x then
        if decide (i < length buf)%nat then
          PutUvarint_loop fuel' (<[i := Z.lor (wrap8 x) 0x80]> buf)
            (Z.shiftr x 7) (S i)
        else None
      else
        if decide (i < length buf)%nat
        then Some (<[i := wrap8 x]> buf, S i)
        else None
  end.

(** [binary.PutUvarint(buf, x)]: the buffer after the writes and the number
    of bytes written.  Every pass writes at the next index, so the loop ends
    or panics within [len buf + 1] passes. *)
Definition PutUvarint (buf : list Z) (x : Z) : option (list Z * nat) :=
  PutUvarint_loop (S (length buf)) buf x 0.

(** The errors of [encoding/binary.ReadUvarint] on a [bytes.Buffer]. *)
Inductive uvarint_error : Type :=
  | EOF
  | ErrUnexpectedEOF
  | errOverflow.

(** The loop of [encoding/binary.ReadUvarint]: [fuel] is what is left of the
    [MaxVarintLen64] passes, [r] the unread bytes. *)
Fixpoint ReadUvarint_loop (fuel : nat) (r : list Z) (x s i : Z)
    : Z * option uvarint_error :=
  match fuel with
  | O => (x, Some errOverflow)
  | S fuel' =>
      match r with
      | [] => (x, Some (if 0 <? i then ErrUnexpectedEOF else EOF))
      | b :: r' =>
          if b <? 0x80 then
            if (i =? Z.of_nat MaxVarintLen64 - 1) && (1 <? b)
            then (x, Some errOverflow)
            else (Z.lor x (wrap64 (Z.shiftl b s)), None)
          else
            ReadUvarint_loop fuel' r'
              (Z.lor x (wrap64 (Z.shiftl (Z.land b 0x7f) s))) (s + 7) (i + 1)
      end
  end.

Definition ReadUvarint (r : list Z) : Z * option uvarint_error :=
  ReadUvarint_loop MaxVarintLen64 r 0 0 0.

(** The store behind [BeaconDB], as far as [validator.go] uses it: the
    bucket [validatorBucket], a map from keys to values, both byte slices.
    [Get] returns [nil] for a key that is not there. *)
Record BeaconDB : Type := MkBeaconDB {
  validatorBucket : gmap (list Z) (list Z)
}.

(** What [ValidatorIndex] returns as an error. *)
Inductive index_error : Type :=
  | ErrNotExist (pubKey : list Z)
  | ErrUvarint (e : uvarint_error).

Section ValidatorDB.

(** [hashutil.Hash], a 32-byte digest of a byte slice. *)
Variable Hash : list Z -> list Z.

(** [bucket.Get(key) != nil] *)
Definition bucket_has (bkt : gmap (list Z) (list Z)) (key : list Z) : bool :=
  match bkt !! key with
  | Some _ => true
  | None => false
  end.

(** [SaveValidatorIndex]; [index] is an [int], converted to [uint64].
    [None] is a panic, [Some] the store after a [nil] error. *)
Definition SaveValidatorIndex (db : BeaconDB) (pubKey : list Z) (index : Z)
    : option BeaconDB :=
  let h := Hash pubKey in
  let buf := repeat 0 MaxVarintLen64 in
  '(buf, n) ← PutUvarint buf (wrap64 index);
  Some (MkBeaconDB (<[h := take n buf]> (validatorBucket db))).

(** [SaveValidatorIndexBatch] performs the same write inside [db.batch]. *)
Definition SaveValidatorIndexBatch (db : BeaconDB) (pubKey : list Z)
    (index : Z) : option BeaconDB :=
  let h := Hash pubKey in
  let buf := repeat 0 MaxVarintLen64 in
  '(buf, n) ← PutUvarint buf (wrap64 index);
  Some (MkBeaconDB (<[h := take n buf]> (validatorBucket db))).

Definition HasValidator (db : BeaconDB) (pubKey : list Z) : bool :=
  let h := Hash pubKey in
  bucket_has (validatorBucket db) h.

(** [ValidatorIndex]: the index and the error, as the function returns
    them. *)
Definition ValidatorIndex (db : BeaconDB) (pubKey : list Z)
    : Z * option index_error :=
  if negb (HasValidator db pubKey) then (0, Some (ErrNotExist pubKey))
  else
    let h := Hash pubKey in
    match validatorBucket db !! h with
    | None => (0, None)
    | Some enc =>
        let '(index, err) := ReadUvarint enc in
        (index, ErrUvarint <$> err)
    end.


(** The loop of [HasValidators]: it breaks at the first key found. *)
Fixpoint HasValidators_loop (db : BeaconDB) (pubKeys : list (list Z))
    (exists_ : bool) : bool :=
  match pubKeys with
  | [] => exists_
  | pk :: pubKeys' =>
      let h := Hash pk in
      let exists_ := bucket_has (validatorBucket db) h in
      if exists_ then exists_ else HasValidators_loop db pubKeys' exists_
  end.

Definition HasValidators (db : BeaconDB) (pubKeys : list (list Z)) : bool :=
  HasValidators_loop db pubKeys false.

(** The loop of [hasValidators], with its two ways to break. *)
Fixpoint hasValidators_loop (bkt : gmap (list Z) (list Z))
    (pubKeys : list (list Z)) (requireAll : bool) (exists_ : bool) : bool :=
  match pubKeys with
  | [] => exists_
  | pk :: pubKeys' =>
      let h := Hash pk in
      let exists_ := bucket_has bkt h in
      if negb exists_ && requireAll then exists_
      else if exists_ && negb requireAll then exists_
      else hasValidators_loop bkt pubKeys' requireAll exists_
  end.

Definition hasValidators (db : BeaconDB) (pubKeys : list (list Z))
    (requireAll : bool) : bool :=
  hasValidators_loop (validatorBucket db) pubKeys requireAll false.

Definition HasAllValidators (db : BeaconDB) (pubKeys : list (list Z)) : bool :=
  hasValidators db pubKeys true.

Definition HasAnyValidators (db : BeaconDB) (pubKeys : list (list Z)) : bool :=
  hasValidators db pubKeys false.

End ValidatorDB.

(** The bytes [PutUvarint] writes for [x], at most [n] of them: seven bits a
    byte, low bits first, the top bit set on all but the last. *)
Fixpoint uvarint_bytes (n : nat) (x : Z) : list Z :=
  match n with
  | O => []
  | S n' =>
      if 0x80 <=? x
      then Z.lor (wrap8 x) 0x80 :: uvarint_bytes n' (Z.shiftr x 7)
      else [wrap8 x]
  end.

(** ** slasher/db/schema.go *)

Section Schema.

(** [bytesutil.Bytes8], which is not among the sources: the properties take
    from it only what they name. *)
Variable Bytes8 : Z -> list Z.

Definition encodeSlotNumberRoot (number : Z) (root : list Z) : list Z :=
  Bytes8 number ++ root.

Definition encodeEpochValidatorID (epoch validatorID : Z) : list Z :=
  Bytes8 epoch ++ Bytes8 validatorID.

Definition encodeEpochValidatorIDSig (epoch validatorID : Z) (sig : list Z)
    : list Z :=
  (Bytes8 epoch ++ Bytes8 validatorID) ++ sig.

Definition encodeEpochSig (epoch : Z) (sig : list Z) : list Z :=
  Bytes8 epoch ++ sig.

Definition encodeSlotNumber (number : Z) : list Z := Bytes8 number.

Definition decodeToSlotNumber (bytearray : list Z) : Z := FromBytes8 bytearray.

End Schema.

(** * Properties *)

Example sha256_abc :
  SHA256.Sum256 [0x61; 0x62; 0x63] =
  [0xba; 0x78; 0x16; 0xbf; 0x8f; 0x01; 0xcf; 0xea; 0x41; 0x41; 0x40; 0xde;
   0x5d; 0xae; 0x22; 0x23; 0xb0; 0x03; 0x61; 0xa3; 0x96; 0x17; 0x7a; 0x9c;
   0xb4; 0x10; 0xff; 0x61; 0xf2; 0x00; 0x15; 0xad].
Proof. vm_compute. reflexivity. Qed.

Example sha256_empty :
  SHA256.Sum256 [] =
  [0xe3; 0xb0; 0xc4; 0x42; 0x98; 0xfc; 0x1c; 0x14; 0x9a; 0xfb; 0xf4; 0xc8;
   0x99; 0x6f; 0xb9; 0x24; 0x27; 0xae; 0x41; 0xe4; 0x64; 0x9b; 0x93; 0x4c;
   0xa4; 0x95; 0x99; 0x1b; 0x78; 0x52; 0xb8; 0x55].
Proof. vm_compute. reflexivity. Qed.


(** ** Machine-integer facts *)

Lemma wrap64_small z : 0 <= z < 2 ^ 64 -> wrap64 z = z.
Proof. intros Hz. unfold wrap64. apply Z.mod_small. exact Hz. Qed.

Lemma wrap32_small z : 0 <= z < 2 ^ 32 -> wrap32 z = z.
Proof. intros Hz. unfold wrap32. apply Z.mod_small. exact Hz. Qed.

Lemma wrap8_small z : 0 <= z < 2 ^ 8 -> wrap8 z = z.
Proof. intros Hz. unfold wrap8. apply Z.mod_small. exact Hz. Qed.

Lemma wrap8_range z : 0 <= wrap8 z < 256.
Proof. unfold wrap8. change (2 ^ 8) with 256. apply Z.mod_pos_bound. lia. Qed.

(** ** The zero-round configuration *)

(** C10: with a round count of zero, [ShuffledIndex] and [UnShuffledIndex]
    return the index they were given and no error, whatever the index and
    the index count are: the early return comes before the bounds checks. *)
Theorem zero_round_bypass (HashSha256 : list Z -> list Z)
    (index indexCount : Z) (seed : list Z) :
  ShuffledIndex HashSha256 0 index indexCount seed = Ok index /\
  UnShuffledIndex HashSha256 0 index indexCount seed = Ok index.
Proof. split; reflexivity. Qed.

(** ** Bounds errors *)

(** C8, as stated, fails: with a round count of zero an index beyond the
    index count comes back unchanged and without an error. *)
Lemma bounds_error_zero_rounds_counterexample :
  3 <= 5 /\
  ShuffledIndex SHA256.Sum256 0 5 3 (repeat 0 32%nat) = Ok 5 /\
  UnShuffledIndex SHA256.Sum256 0 5 3 (repeat 0 32%nat) = Ok 5 /\
  ~ (exists e, ShuffledIndex SHA256.Sum256 0 5 3 (repeat 0 32%nat) = Err e).
Proof.
  split; [lia|]. split; [reflexivity|]. split; [reflexivity|].
  intros [e He]. discriminate He.
Qed.

(** C8, amended: with a non-zero round count [ShuffledIndex] and
    [UnShuffledIndex] return an error, and do not panic, whenever
    [index >= indexCount] or [indexCount > 2^40]; [ShuffleList] and
    [UnshuffleList] return an error whenever the list is longer than [2^40],
    for every round count. *)
Theorem bounds_errors (HashSha256 : list Z -> list Z) (ShuffleRoundCount : Z)
    (seed : list Z) (shuffle : bool) :
  (forall index indexCount : Z,
      ShuffleRoundCount <> 0 ->
      (indexCount <= index \/ 2 ^ 40 < indexCount) ->
      innerShuffledIndex HashSha256 ShuffleRoundCount index indexCount seed shuffle
      = Err (if indexCount <=? index then IndexOutOfBounds index indexCount
             else ListSizeOutOfBounds indexCount)) /\
  (forall input : list Z,
      (2 ^ 40 < Z.of_nat (length input)) ->
      innerShuffleList HashSha256 ShuffleRoundCount input seed shuffle
      = Err (ListSizeOutOfBounds (Z.of_nat (length input)))).
Proof.
  split.
  - intros index indexCount Hc Hb. unfold innerShuffledIndex.
    destruct (ShuffleRoundCount =? 0) eqn:E0; [apply Z.eqb_eq in E0; contradiction|].
    destruct (indexCount <=? index) eqn:E1; [reflexivity|].
    apply Z.leb_gt in E1.
    assert (H40 : (maxShuffleListSize <? indexCount) = true).
    { apply Z.ltb_lt. unfold maxShuffleListSize. lia. }
    rewrite H40. reflexivity.
  - intros input Hlen. unfold innerShuffleList.
    assert (H1 : (length input <=? 1)%nat = false).
    { apply Nat.leb_gt. assert (1 < 2 ^ 40) by reflexivity. lia. }
    rewrite H1.
    assert (H40 : (maxShuffleListSize <? Z.of_nat (length input)) = true).
    { apply Z.ltb_lt. exact Hlen. }
    rewrite H40. reflexivity.
Qed.

Lemma bounds_errors_witness :
  ShuffledIndex SHA256.Sum256 90 5 3 (repeat 0 32%nat)
  = Err (IndexOutOfBounds 5 3) /\
  UnShuffledIndex SHA256.Sum256 90 0 (2 ^ 40 + 1) (repeat 0 32%nat)
  = Err (ListSizeOutOfBounds (2 ^ 40 + 1)) /\
  ShuffleList SHA256.Sum256 0 (repeat 0 (Z.to_nat (2 ^ 40 + 1))) (repeat 0 32%nat)
  = Err (ListSizeOutOfBounds (2 ^ 40 + 1)).
Proof.
  split; [|split].
  - apply (proj1 (bounds_errors SHA256.Sum256 90 (repeat 0 32%nat) true) 5 3);
      [lia | left; lia].
  - apply (proj1 (bounds_errors SHA256.Sum256 90 (repeat 0 32%nat) false)
             0 (2 ^ 40 + 1)); [lia | right; lia].
  - pose proof (proj2 (bounds_errors SHA256.Sum256 0 (repeat 0 32%nat) true)
             (repeat 0 (Z.to_nat (2 ^ 40 + 1)))) as H.
    rewrite repeat_length, Z2Nat.id in H by lia.
    apply H. lia.
Defined.

(** ** Splitting *)

Lemma exact_offset_mono listSize chunks i j :
  0 <= listSize -> 0 < chunks -> i <= j ->
  exact_offset listSize chunks i <= exact_offset listSize chunks j.
Proof.
  intros Hl Hc Hij. unfold exact_offset.
  apply Z.div_le_mono; [lia | nia].
Qed.

Lemma exact_offset_0 listSize chunks : exact_offset listSize chunks 0 = 0.
Proof. unfold exact_offset. rewrite Z.mul_0_r. apply Zdiv_0_l. Qed.

Lemma exact_offset_full listSize chunks :
  0 < chunks -> exact_offset listSize chunks chunks = listSize.
Proof. intros Hc. unfold exact_offset. apply Z.div_mul. lia. Qed.

Lemma exact_offset_nonneg listSize chunks i :
  0 <= listSize -> 0 < chunks -> 0 <= i -> 0 <= exact_offset listSize chunks i.
Proof. intros Hl Hc Hi. unfold exact_offset. apply Z.div_pos; nia. Qed.

Lemma SplitOffset_exact listSize chunks index :
  0 < chunks -> 0 <= listSize * index < 2 ^ 64 ->
  SplitOffset listSize chunks index = Some (exact_offset listSize chunks index).
Proof.
  intros Hc Hb. unfold SplitOffset, exact_offset.
  destruct (chunks =? 0) eqn:E; [apply Z.eqb_eq in E; lia|].
  rewrite wrap64_small by exact Hb. reflexivity.
Qed.

Lemma slice_exact (l : list Z) chunks i :
  0 < chunks -> 0 <= i < chunks ->
  slice l (exact_offset (Z.of_nat (length l)) chunks i)
          (exact_offset (Z.of_nat (length l)) chunks (i + 1))
  = Some (split_piece l chunks i).
Proof.
  intros Hc Hi. unfold slice, split_piece.
  set (len := Z.of_nat (length l)).
  assert (Hlen : 0 <= len) by (unfold len; lia).
  pose proof (exact_offset_nonneg len chunks i Hlen Hc ltac:(lia)) as H0.
  pose proof (exact_offset_mono len chunks i (i + 1) Hlen Hc ltac:(lia)) as H1.
  pose proof (exact_offset_mono len chunks (i + 1) chunks Hlen Hc ltac:(lia)) as H2.
  rewrite exact_offset_full in H2 by exact Hc.
  assert (E : ((0 <=? exact_offset len chunks i)
               && (exact_offset len chunks i <=? exact_offset len chunks (i + 1))
               && (exact_offset len chunks (i + 1) <=? len)) = true).
  { rewrite !andb_true_iff, !Z.leb_le. lia. }
  rewrite E. reflexivity.
Qed.

Lemma SplitIndices_loop_spec (l : list Z) (n : Z) :
  0 < n < 2 ^ 64 -> Z.of_nat (length l) * n < 2 ^ 64 ->
  forall (fuel : nat) (i : Z) (divided : list (list Z)),
    0 <= i -> i + Z.of_nat fuel = n ->
    SplitIndices_loop fuel l n i divided
    = Some (divided ++ map (fun k => split_piece l n (i + Z.of_nat k)) (seq 0 fuel)).
Proof.
  intros Hn Hb. induction fuel as [|fuel IH]; intros i divided Hi Hsum.
  - simpl. rewrite app_nil_r. reflexivity.
  - cbn [SplitIndices_loop].
    assert (Hlt : (i <? n) = true) by (apply Z.ltb_lt; lia).
    rewrite Hlt.
    rewrite (wrap64_small (i + 1)) by lia.
    rewrite !SplitOffset_exact by nia.
    cbn [mbind option_bind].
    rewrite slice_exact by lia.
    cbn [mbind option_bind].
    rewrite IH by lia.
    rewrite <- app_assoc. cbn [app seq map].
    rewrite Z.add_0_r. do 3 f_equal.
    rewrite <- seq_shift, map_map.
    apply map_ext. intros k. f_equal. lia.
Qed.

(** The pieces up to [i] concatenate to the prefix of length
    [exact_offset i]. *)
Lemma concat_split_pieces (l : list Z) (n : Z) (k : nat) :
  0 < n -> Z.of_nat k <= n ->
  concat (map (fun j => split_piece l n (0 + Z.of_nat j)) (seq 0 k))
  = take (Z.to_nat (exact_offset (Z.of_nat (length l)) n (Z.of_nat k))) l.
Proof.
  intros Hn. induction k as [|k IH]; intros Hk.
  - simpl. rewrite exact_offset_0. reflexivity.
  - rewrite seq_S, map_app, concat_app, IH by lia.
    cbn [map concat]. rewrite app_nil_r, Nat.add_0_l, Z.add_0_l.
    unfold split_piece.
    set (len := Z.of_nat (length l)).
    assert (Hlen : 0 <= len) by (unfold len; lia).
    pose proof (exact_offset_nonneg len n (Z.of_nat k) Hlen Hn ltac:(lia)) as H0.
    pose proof (exact_offset_mono len n (Z.of_nat k) (Z.of_nat k + 1) Hlen Hn ltac:(lia)) as H1.
    rewrite take_take_drop. f_equal.
    replace (Z.of_nat (S k)) with (Z.of_nat k + 1) by lia. lia.
Qed.

(** C9, as stated, fails: the product [listSize * index] is taken on
    [uint64] and wraps. *)
Lemma split_offset_overflow_counterexample :
  0 < 2 /\ 0 <= 2 <= 2 /\
  SplitOffset (2 ^ 63) 2 2 = Some 0 /\
  2 ^ 63 * 2 / 2 = 2 ^ 63 /\
  SplitOffset (2 ^ 63) 2 2 <> Some (2 ^ 63 * 2 / 2).
Proof.
  split; [lia|]. split; [lia|]. split; [reflexivity|]. split; [reflexivity|].
  intros H. vm_compute in H. discriminate H.
Qed.

(** C9, amended: while [listSize * index] does not overflow [uint64],
    [SplitOffset listSize chunks index] is [floor (listSize * index / chunks)];
    and while [|L| * k] does not overflow, [SplitIndices L k] returns exactly
    [k] pieces, piece [i] being [L[SplitOffset(|L|,k,i) : SplitOffset(|L|,k,i+1)]],
    whose concatenation is [L]. *)
Theorem split_correct (chunks : Z) :
  0 < chunks < 2 ^ 64 ->
  (forall listSize index : Z,
      0 <= index <= chunks -> 0 <= listSize -> listSize * index < 2 ^ 64 ->
      SplitOffset listSize chunks index = Some (listSize * index / chunks)) /\
  (forall l : list Z,
      Z.of_nat (length l) * chunks < 2 ^ 64 ->
      exists pieces : list (list Z),
        SplitIndices l chunks = Some pieces /\
        length pieces = Z.to_nat chunks /\
        concat pieces = l /\
        forall i : Z, 0 <= i < chunks ->
          exists start end_ : Z,
            SplitOffset (Z.of_nat (length l)) chunks i = Some start /\
            SplitOffset (Z.of_nat (length l)) chunks (i + 1) = Some end_ /\
            slice l start end_ = Some (split_piece l chunks i) /\
            pieces !! Z.to_nat i = Some (split_piece l chunks i)).
Proof.
  intros Hc. split.
  - intros listSize index Hi Hl Hb.
    rewrite SplitOffset_exact by nia. reflexivity.
  - intros l Hb.
    set (pieces := map (fun j => split_piece l chunks (0 + Z.of_nat j))
                       (seq 0 (Z.to_nat chunks))).
    exists pieces. split; [|split; [|split]].
    + unfold SplitIndices.
      rewrite (SplitIndices_loop_spec l chunks Hc Hb) by lia. reflexivity.
    + unfold pieces. rewrite length_map, length_seq. reflexivity.
    + unfold pieces. rewrite concat_split_pieces by lia.
      rewrite Z2Nat.id by lia. rewrite exact_offset_full by lia.
      rewrite Nat2Z.id. apply firstn_all.
    + intros i Hi.
      exists (exact_offset (Z.of_nat (length l)) chunks i),
             (exact_offset (Z.of_nat (length l)) chunks (i + 1)).
      split; [apply SplitOffset_exact; nia|].
      split; [apply SplitOffset_exact; nia|].
      split; [apply slice_exact; lia|].
      unfold pieces. rewrite list_lookup_fmap.
      rewrite lookup_seq_lt by lia. cbn [fmap option_fmap option_map].
      do 2 f_equal. lia.
Qed.

Lemma split_correct_witness :
  SplitOffset 323 98 56 = Some 184 /\
  SplitIndices [10; 11; 12; 13; 14; 15; 16] 3
  = Some [[10; 11]; [12; 13]; [14; 15; 16]].
Proof.
  assert (Hc : 0 < 3 < 2 ^ 64) by (split; reflexivity).
  assert (Hc' : 0 < 98 < 2 ^ 64) by (split; reflexivity).
  split.
  - apply (proj1 (split_correct 98 Hc') 323 56); [lia | lia | reflexivity].
  - destruct (proj2 (split_correct 3 Hc) [10; 11; 12; 13; 14; 15; 16])
      as (pieces & Hs & _); [reflexivity|].
    rewrite Hs. f_equal. injection Hs as <-. reflexivity.
Defined.

(** ** Arithmetic of one round *)

Lemma length_le_bytes n x : length (le_bytes n x) = n.
Proof. unfold le_bytes. rewrite length_map, length_seq. reflexivity. Qed.

Lemma flip_cases indexCount p index :
  0 < indexCount ->
  0 <= p < indexCount -> 0 <= index < indexCount ->
  (p + indexCount - index) mod indexCount
  = if index <=? p then p - index else p + indexCount - index.
Proof.
  intros indexCount_pos Hp Hi. destruct (index <=? p) eqn:E.
  - apply Z.leb_le in E.
    replace (p + indexCount - index) with (p - index + 1 * indexCount) by lia.
    rewrite Z_mod_plus_full. apply Z.mod_small. lia.
  - apply Z.leb_gt in E. apply Z.mod_small. lia.
Qed.

Lemma flip_range indexCount p index :
  0 < indexCount ->
  0 <= p < indexCount -> 0 <= index < indexCount ->
  0 <= (p + indexCount - index) mod indexCount < indexCount.
Proof. intros indexCount_pos _ _. apply Z.mod_pos_bound. exact indexCount_pos. Qed.

Lemma flip_flip indexCount p index :
  0 < indexCount ->
  0 <= p < indexCount -> 0 <= index < indexCount ->
  (p + indexCount - (p + indexCount - index) mod indexCount) mod indexCount = index.
Proof.
  intros indexCount_pos Hp Hi.
  pose proof (flip_range indexCount p index indexCount_pos Hp Hi) as Hf.
  rewrite (flip_cases indexCount p _ indexCount_pos Hp Hf).
  rewrite (flip_cases indexCount p index indexCount_pos Hp Hi).
  destruct (index <=? p) eqn:E.
  - apply Z.leb_le in E.
    destruct (p - index <=? p) eqn:E'; [lia|apply Z.leb_gt in E'; lia].
  - apply Z.leb_gt in E.
    destruct (p + indexCount - index <=? p) eqn:E'; [apply Z.leb_le in E'; lia|lia].
Qed.

(** ** The hash buffer *)

Section HashBuffer.

Variable seed : list Z.
Hypothesis seed_length : length seed = 32%nat.

#[local] Set Default Proof Using "All".

Lemma buf_ok_init : buf_ok seed (copy_at 0 (take seedSize seed) (repeat 0 totalSize)).
Proof.
  assert (Hs : take seedSize seed = seed).
  { apply take_ge. unfold seedSize. lia. }
  rewrite Hs. unfold buf_ok, copy_at.
  rewrite take_0, app_nil_l, Nat.add_0_l, Nat.sub_0_r, repeat_length.
  rewrite (take_ge seed) by (unfold totalSize, seedSize; lia).
  rewrite seed_length. split.
  - rewrite length_app, length_drop, repeat_length, seed_length. reflexivity.
  - rewrite take_app_length' by lia. reflexivity.
Qed.

Lemma buf_round_prefix buf r :
  buf_ok seed buf -> take pivotViewSize (<[seedSize := r]> buf) = pivot_input seed r.
Proof.
  intros [Hlen Hseed]. unfold pivotViewSize, seedSize, roundSize, pivot_input.
  change (32 + 1)%nat with 33%nat.
  apply list_eq. intros i.
  destruct (decide (i < 33)%nat) as [Hi|Hi].
  - rewrite lookup_take_lt by lia.
    destruct (decide (i = 32%nat)) as [->|Hne].
    + rewrite list_lookup_insert_eq by lia.
      rewrite lookup_app_r by lia. rewrite seed_length. reflexivity.
    + rewrite list_lookup_insert_ne by lia.
      rewrite lookup_app_l by lia.
      rewrite <- Hseed. rewrite lookup_take_lt by lia. reflexivity.
  - rewrite lookup_take_ge by lia. symmetry. apply lookup_ge_None.
    rewrite length_app, seed_length. simpl. lia.
Qed.

Lemma buf_window buf r (w : list Z) :
  buf_ok seed buf -> length w = 4%nat ->
  copy_at pivotViewSize w (<[seedSize := r]> buf) = seed ++ [r] ++ w.
Proof.
  intros Hb Hw. pose proof (buf_round_prefix buf r Hb) as Hp.
  destruct Hb as [Hlen Hseed].
  unfold copy_at. rewrite Hp. unfold pivot_input.
  rewrite length_insert, Hlen, Hw.
  unfold pivotViewSize, seedSize, roundSize.
  rewrite take_ge by lia. rewrite drop_ge by (rewrite length_insert; lia).
  rewrite app_nil_r, <- app_assoc. reflexivity.
Qed.

Lemma buf_ok_window r (w : list Z) :
  length w = 4%nat -> buf_ok seed (seed ++ [r] ++ w).
Proof.
  intros Hw. split.
  - rewrite !length_app, seed_length, Hw. reflexivity.
  - rewrite take_app_length' by lia. reflexivity.
Qed.

End HashBuffer.

(** ** The rounds as maps on indices *)

Section RoundFacts.

Variable HashSha256 : list Z -> list Z.
Variable seed : list Z.
Variable indexCount : Z.
Hypothesis indexCount_pos : 0 < indexCount.

#[local] Set Default Proof Using "All".

Abbreviation pivot := (round_pivot HashSha256 seed indexCount).
Abbreviation rmap := (round_map HashSha256 seed indexCount).

Lemma pivot_range r : 0 <= pivot r < indexCount.
Proof. unfold round_pivot. apply Z.mod_pos_bound. exact indexCount_pos. Qed.

Lemma round_map_range r index :
  0 <= index < indexCount -> 0 <= rmap r index < indexCount.
Proof.
  intros Hi. unfold round_map.
  pose proof (flip_range indexCount (pivot r) index indexCount_pos (pivot_range r) Hi).
  destruct (_ =? 1); lia.
Qed.

(** Each round is an involution: the pair [{index, flip}] shares its
    position, hence its bit. *)
Lemma round_map_involutive r index :
  0 <= index < indexCount -> rmap r (rmap r index) = index.
Proof.
  intros Hi. unfold round_map at 2.
  pose proof (pivot_range r) as Hp.
  pose proof (flip_range indexCount (pivot r) index indexCount_pos Hp Hi) as Hf.
  set (flip := (pivot r + indexCount - index) mod indexCount) in *.
  destruct (round_bit HashSha256 seed r (Z.max index flip) =? 1) eqn:Eb.
  - unfold round_map. fold flip.
    assert (Hff : (pivot r + indexCount - flip) mod indexCount = index)
      by (apply flip_flip; assumption).
    rewrite Hff. rewrite (Z.max_comm flip index), Eb. reflexivity.
  - unfold round_map. fold flip. rewrite Eb. reflexivity.
Qed.

Lemma apply_rounds_range rs index :
  0 <= index < indexCount ->
  0 <= apply_rounds HashSha256 seed indexCount rs index < indexCount.
Proof.
  revert index. induction rs as [|r rs IH]; intros index Hi; [exact Hi|].
  apply IH. apply round_map_range. exact Hi.
Qed.

Lemma apply_rounds_app rs1 rs2 index :
  apply_rounds HashSha256 seed indexCount (rs1 ++ rs2) index
  = apply_rounds HashSha256 seed indexCount rs2
      (apply_rounds HashSha256 seed indexCount rs1 index).
Proof. unfold apply_rounds. apply fold_left_app. Qed.

(** Running the rounds backwards undoes running them forwards. *)
Lemma apply_rounds_rev rs index :
  0 <= index < indexCount ->
  apply_rounds HashSha256 seed indexCount (rev rs)
    (apply_rounds HashSha256 seed indexCount rs index) = index.
Proof.
  revert index. induction rs as [|r rs IH]; intros index Hi; [reflexivity|].
  cbn [rev]. rewrite apply_rounds_app.
  change (apply_rounds HashSha256 seed indexCount (r :: rs) index)
    with (apply_rounds HashSha256 seed indexCount rs (rmap r index)).
  rewrite IH by (apply round_map_range; exact Hi).
  cbn. apply round_map_involutive. exact Hi.
Qed.

End RoundFacts.

(** ** The index shuffle, round by round *)

Section IndexShuffle.

Variable HashSha256 : list Z -> list Z.
Variable seed : list Z.
Variable indexCount : Z.
Hypothesis seed_length : length seed = 32%nat.
Hypothesis indexCount_pos : 0 < indexCount.

#[local] Set Default Proof Using "All".

Abbreviation pivot := (round_pivot HashSha256 seed indexCount).
Abbreviation rmap := (round_map HashSha256 seed indexCount).

Lemma shuffledIndex_body_spec buf r index :
  buf_ok seed buf -> 0 <= index < indexCount -> indexCount <= 2 ^ 40 ->
  exists buf',
    shuffledIndex_body HashSha256 buf r index indexCount
    = Some (buf', rmap r index) /\ buf_ok seed buf'.
Proof.
  intros Hb Hi Hn. unfold shuffledIndex_body.
  rewrite (buf_round_prefix seed seed_length buf r Hb).
  destruct (indexCount =? 0) eqn:E0; [apply Z.eqb_eq in E0; lia|].
  fold (pivot r).
  pose proof (pivot_range HashSha256 seed indexCount indexCount_pos r) as Hp.
  rewrite (wrap64_small (pivot r + indexCount)) by lia.
  rewrite (wrap64_small (pivot r + indexCount - index)) by lia.
  set (flip := (pivot r + indexCount - index) mod indexCount).
  assert (Hpos : (if index <? flip then flip else index) = Z.max index flip).
  { destruct (index <? flip) eqn:E; [apply Z.ltb_lt in E|apply Z.ltb_ge in E]; lia. }
  rewrite Hpos.
  rewrite (buf_window seed seed_length buf r _ Hb) by apply length_le_bytes.
  eexists. split.
  - unfold round_map, round_bit, source_input, ToBytes. fold flip. reflexivity.
  - apply (buf_ok_window seed seed_length). apply length_le_bytes.
Qed.

(** The ascending loop from round [r] on makes [k] passes, over the rounds
    [r, r+1, ..., r+k-1], and stops when the counter meets
    [uint8(ShuffleRoundCount)]. *)
Lemma shuffledIndex_loop_up (ShuffleRoundCount : Z) :
  indexCount <= 2 ^ 40 ->
  forall (k : nat) (fuel : nat) (r : nat) (buf : list Z) (index : Z),
    (r + S k = round_passes ShuffleRoundCount)%nat -> (S k <= fuel)%nat ->
    buf_ok seed buf -> 0 <= index < indexCount ->
    shuffledIndex_loop HashSha256 fuel true (wrap8 ShuffleRoundCount)
      (Z.of_nat r) buf index indexCount
    = Ok (apply_rounds HashSha256 seed indexCount
            (map Z.of_nat (seq r (S k))) index).
Proof.
  intros Hn. pose proof (wrap8_range ShuffleRoundCount) as Hw.
  induction k as [|k IH]; intros fuel r buf index Hr Hf Hb Hi;
    (destruct fuel as [|fuel]; [lia|]); cbn [shuffledIndex_loop];
    destruct (shuffledIndex_body_spec buf (Z.of_nat r) index Hb Hi Hn)
      as (buf' & -> & Hb');
    unfold round_passes in Hr;
    destruct (wrap8 ShuffleRoundCount =? 0) eqn:E0;
    [apply Z.eqb_eq in E0|apply Z.eqb_neq in E0| apply Z.eqb_eq in E0|apply Z.eqb_neq in E0].
  - assert (Hr' : Z.of_nat r + 1 = 256) by lia. rewrite Hr', E0. reflexivity.
  - rewrite wrap8_small by (change (2 ^ 8) with 256; lia).
    assert (Hr' : Z.of_nat r + 1 = wrap8 ShuffleRoundCount) by lia.
    rewrite Hr', Z.eqb_refl. reflexivity.
  - rewrite wrap8_small by (change (2 ^ 8) with 256; lia).
    assert (Hne : (Z.of_nat r + 1 =? wrap8 ShuffleRoundCount) = false)
      by (apply Z.eqb_neq; lia).
    rewrite Hne.
    replace (Z.of_nat r + 1) with (Z.of_nat (S r)) by lia.
    rewrite IH; [reflexivity| | lia | exact Hb' | ].
    + unfold round_passes. rewrite (proj2 (Z.eqb_eq _ _) E0). lia.
    + apply round_map_range; assumption.
  - rewrite wrap8_small by (change (2 ^ 8) with 256; lia).
    assert (Hne : (Z.of_nat r + 1 =? wrap8 ShuffleRoundCount) = false)
      by (apply Z.eqb_neq; lia).
    rewrite Hne.
    replace (Z.of_nat r + 1) with (Z.of_nat (S r)) by lia.
    rewrite IH; [reflexivity| | lia | exact Hb' | ].
    + unfold round_passes. rewrite (proj2 (Z.eqb_neq _ _) E0). lia.
    + apply round_map_range; assumption.
Qed.

(** The descending loop from round [r] makes [r+1] passes, over the rounds
    [r, r-1, ..., 0]. *)
Lemma shuffledIndex_loop_down (rounds : Z) :
  indexCount <= 2 ^ 40 ->
  forall (r : nat) (fuel : nat) (buf : list Z) (index : Z),
    (r < 256)%nat -> (S r <= fuel)%nat ->
    buf_ok seed buf -> 0 <= index < indexCount ->
    shuffledIndex_loop HashSha256 fuel false rounds (Z.of_nat r) buf index indexCount
    = Ok (apply_rounds HashSha256 seed indexCount
            (rev (map Z.of_nat (seq 0 (S r)))) index).
Proof.
  intros Hn. induction r as [|r IH]; intros fuel buf index Hr Hf Hb Hi;
    (destruct fuel as [|fuel]; [lia|]).
  - cbn [shuffledIndex_loop]. change (Z.of_nat 0) with 0.
    destruct (shuffledIndex_body_spec buf 0 index Hb Hi Hn) as (buf' & -> & Hb').
    reflexivity.
  - cbn [shuffledIndex_loop].
    destruct (shuffledIndex_body_spec buf (Z.of_nat (S r)) index Hb Hi Hn)
      as (buf' & -> & Hb').
    assert (Hne : (Z.of_nat (S r) =? 0) = false) by (apply Z.eqb_neq; lia).
    rewrite Hne.
    rewrite wrap8_small by (change (2 ^ 8) with 256; lia).
    replace (Z.of_nat (S r) - 1) with (Z.of_nat r) by lia.
    rewrite IH; [| lia | lia | exact Hb' | apply round_map_range; assumption].
    rewrite (seq_S (S r)), map_app, rev_app_distr. reflexivity.
Qed.

End IndexShuffle.

Lemma round_passes_range c : (1 <= round_passes c <= 256)%nat.
Proof.
  unfold round_passes. pose proof (wrap8_range c) as Hw.
  destruct (wrap8 c =? 0) eqn:E; [lia|]. apply Z.eqb_neq in E. lia.
Qed.

Lemma last_round c : wrap8 (wrap8 c - 1) = Z.of_nat (round_passes c - 1).
Proof.
  unfold round_passes. pose proof (wrap8_range c) as Hw.
  destruct (wrap8 c =? 0) eqn:E.
  - apply Z.eqb_eq in E. rewrite E. reflexivity.
  - apply Z.eqb_neq in E.
    rewrite wrap8_small by (change (2 ^ 8) with 256; lia). lia.
Qed.

(** With a non-zero round count and arguments within bounds,
    [innerShuffledIndex] applies the rounds [0 .. passes-1], ascending to
    shuffle and descending to unshuffle. *)
Lemma innerShuffledIndex_rounds (HashSha256 : list Z -> list Z)
    (ShuffleRoundCount : Z) (seed : list Z) (index indexCount : Z)
    (shuffle : bool) :
  length seed = 32%nat -> ShuffleRoundCount <> 0 ->
  indexCount <= 2 ^ 40 -> 0 <= index < indexCount ->
  innerShuffledIndex HashSha256 ShuffleRoundCount index indexCount seed shuffle
  = Ok (apply_rounds HashSha256 seed indexCount
          (if shuffle then rounds_up ShuffleRoundCount
           else rev (rounds_up ShuffleRoundCount)) index).
Proof.
  intros Hs Hc Hn Hi. unfold innerShuffledIndex.
  destruct (ShuffleRoundCount =? 0) eqn:E0; [apply Z.eqb_eq in E0; contradiction|].
  destruct (indexCount <=? index) eqn:E1; [apply Z.leb_le in E1; lia|].
  destruct (maxShuffleListSize <? indexCount) eqn:E2;
    [apply Z.ltb_lt in E2; unfold maxShuffleListSize in E2; lia|].
  pose proof (round_passes_range ShuffleRoundCount) as Hp.
  assert (Hpos : 0 < indexCount) by lia.
  pose proof (buf_ok_init seed Hs) as Hb.
  unfold rounds_up. destruct shuffle.
  - change 0 with (Z.of_nat 0) at 1.
    replace (round_passes ShuffleRoundCount)
      with (S (round_passes ShuffleRoundCount - 1)) at 1 by lia.
    apply (shuffledIndex_loop_up HashSha256 seed indexCount Hs Hpos
             ShuffleRoundCount Hn); [lia | unfold round_fuel; lia | exact Hb | exact Hi].
  - rewrite last_round.
    replace (round_passes ShuffleRoundCount)
      with (S (round_passes ShuffleRoundCount - 1)) at 2 by lia.
    apply (shuffledIndex_loop_down HashSha256 seed indexCount Hs Hpos _ Hn);
      [lia | unfold round_fuel; lia | exact Hb | exact Hi].
Qed.

(** C1: for every 32-byte seed, every index count [n] with [0 < n <= 2^40],
    every index [i < n] and every configured round count, [ShuffledIndex]
    returns some [j] and [UnShuffledIndex] maps [j] back to [i]. *)
Theorem shuffle_invertible (HashSha256 : list Z -> list Z)
    (ShuffleRoundCount : Z) (seed : list Z) (n i : Z) :
  length seed = 32%nat -> 0 < n <= 2 ^ 40 -> 0 <= i < n ->
  exists j : Z,
    ShuffledIndex HashSha256 ShuffleRoundCount i n seed = Ok j /\
    UnShuffledIndex HashSha256 ShuffleRoundCount j n seed = Ok i.
Proof.
  intros Hs Hn Hi. unfold ShuffledIndex, UnShuffledIndex.
  destruct (decide (ShuffleRoundCount = 0)) as [->|Hc].
  - exists i. split; reflexivity.
  - assert (Hpos : 0 < n) by lia.
    rewrite innerShuffledIndex_rounds by (try assumption; lia).
    eexists. split; [reflexivity|].
    rewrite innerShuffledIndex_rounds;
      [| assumption | assumption | lia | apply apply_rounds_range; assumption].
    f_equal. apply apply_rounds_rev; assumption.
Qed.

Lemma shuffle_invertible_witness :
  exists j : Z,
    ShuffledIndex SHA256.Sum256 90 0 4 (repeat 0 32%nat) = Ok j /\
    UnShuffledIndex SHA256.Sum256 90 j 4 (repeat 0 32%nat) = Ok 0.
Proof. apply shuffle_invertible; [reflexivity | lia | lia]. Defined.

(** ** The list shuffle, sweep by sweep *)

Lemma land_255 j : Z.land j 0xff = j mod 256.
Proof. change 0xff with (Z.ones 8). rewrite Z.land_ones by lia. reflexivity. Qed.

Lemma land_7 j : Z.land j 0x7 = j mod 8.
Proof. change 0x7 with (Z.ones 3). rewrite Z.land_ones by lia. reflexivity. Qed.

Lemma shiftr_8 j : Z.shiftr j 8 = j / 256.
Proof. rewrite Z.shiftr_div_pow2 by lia. reflexivity. Qed.

Lemma shiftr_3 j : Z.shiftr j 3 = j / 8.
Proof. rewrite Z.shiftr_div_pow2 by lia. reflexivity. Qed.

Lemma shiftr_1 j : Z.shiftr j 1 = j / 2.
Proof. rewrite Z.shiftr_div_pow2 by lia. reflexivity. Qed.

Lemma window_pred j :
  1 <= j -> (j - 1) mod 256 <> 255 -> (j - 1) / 256 = j / 256.
Proof. intros Hj Hm. Z.div_mod_to_equations. lia. Qed.

Lemma byte_pred j :
  1 <= j -> (j - 1) mod 8 <> 7 ->
  (j - 1) / 256 = j / 256 /\ ((j - 1) mod 256) / 8 = (j mod 256) / 8.
Proof. intros Hj Hm. Z.div_mod_to_equations. lia. Qed.

Lemma window_byte j : j mod 256 = 255 -> j mod 8 = 7.
Proof. intros Hm. Z.div_mod_to_equations. lia. Qed.

Section ListShuffle.

Variable HashSha256 : list Z -> list Z.
Variable seed : list Z.
Hypothesis seed_length : length seed = 32%nat.

#[local] Set Default Proof Using "All".

Lemma buf_round_of_ok buf r :
  buf_ok seed buf -> buf_round seed r (<[seedSize := r]> buf).
Proof.
  intros Hb. split.
  - rewrite length_insert. apply Hb.
  - apply (buf_round_prefix seed seed_length buf r Hb).
Qed.

Lemma buf_round_window buf r (w : list Z) :
  buf_round seed r buf -> length w = 4%nat ->
  copy_at pivotViewSize w buf = seed ++ [r] ++ w.
Proof.
  intros [Hlen Hp] Hw. unfold copy_at, pivotViewSize, seedSize, roundSize.
  change (32 + 1)%nat with 33%nat. rewrite Hp. unfold pivot_input.
  rewrite Hlen, Hw. rewrite take_ge by lia. rewrite drop_ge by lia.
  rewrite app_nil_r, <- app_assoc. reflexivity.
Qed.

Lemma buf_round_of_window r (w : list Z) :
  length w = 4%nat -> buf_round seed r (seed ++ [r] ++ w).
Proof.
  intros Hw. split.
  - rewrite !length_app, seed_length, Hw. reflexivity.
  - rewrite app_assoc. rewrite take_app_length'; [reflexivity|].
    rewrite length_app, seed_length. reflexivity.
Qed.

Lemma buf_ok_of_round r buf : buf_round seed r buf -> buf_ok seed buf.
Proof.
  intros [Hlen Hp]. split; [exact Hlen|].
  replace (take 32 buf) with (take 32 (take 33 buf))
    by (rewrite take_take; f_equal).
  rewrite Hp. unfold pivot_input. rewrite take_app_length' by lia. reflexivity.
Qed.

Lemma PutUint32_window buf r j :
  buf_round seed r buf -> 0 <= j < 2 ^ 40 ->
  PutUint32 pivotViewSize (wrap32 (Z.shiftr j 8)) buf = source_input seed r j.
Proof.
  intros Hb Hj. unfold PutUint32.
  rewrite wrap32_small.
  - rewrite (buf_round_window buf r _ Hb) by apply length_le_bytes. reflexivity.
  - rewrite shiftr_8. split; [apply Z.div_pos; lia|].
    apply Z.div_lt_upper_bound; [lia|]. change (256 * 2 ^ 32) with (2 ^ 40). lia.
Qed.

Lemma cache_step r j st :
  cache_full HashSha256 seed r j st -> 1 <= j ->
  cache_ok HashSha256 seed r (j - 1) st.
Proof.
  intros (Hb & Hs & Hv) Hj. split; [exact Hb|]. split.
  - rewrite land_255. intros Hm. rewrite Hs. unfold source_input.
    rewrite !shiftr_8, (window_pred j Hj Hm). reflexivity.
  - rewrite land_7. intros Hm. rewrite Hv. unfold source_input.
    rewrite !land_255, !shiftr_3, !shiftr_8.
    destruct (byte_pred j Hj Hm) as [-> ->]. reflexivity.
Qed.

Lemma swapOrNot_spec r i j st :
  cache_ok HashSha256 seed r j st ->
  0 <= i < j -> j < Z.of_nat (length (ss_input st)) ->
  Z.of_nat (length (ss_input st)) <= 2 ^ 40 ->
  exists st',
    swapOrNot HashSha256 (ss_buf st) (ss_byteV st) i (ss_input st) j (ss_source st)
    = Some st' /\
    cache_full HashSha256 seed r j st' /\
    length (ss_input st') = length (ss_input st) /\
    forall x : nat,
      ss_input st' !! x
      = ss_input st !! Z.to_nat
          (if round_bit HashSha256 seed r j =? 1
           then transpose i j (Z.of_nat x) else Z.of_nat x).
Proof.
  intros (Hb & Hs & Hv) Hij Hj Hn.
  destruct st as [buf byteV input source]. cbn [ss_buf ss_byteV ss_input ss_source] in *.
  unfold swapOrNot.
  set (bs := if Z.land j 255 =? 255
             then (PutUint32 pivotViewSize (wrap32 (Z.shiftr j 8)) buf,
                   HashSha256 (PutUint32 pivotViewSize (wrap32 (Z.shiftr j 8)) buf))
             else (buf, source)).
  assert (Hbs : buf_round seed r bs.1 /\ bs.2 = HashSha256 (source_input seed r j)).
  { unfold bs. destruct (Z.land j 255 =? 255) eqn:E.
    - rewrite (PutUint32_window buf r j Hb) by lia. cbn [fst snd]. split; [|reflexivity].
      apply buf_round_of_window. apply length_le_bytes.
    - cbn [fst snd]. split; [exact Hb|]. apply Hs. apply Z.eqb_neq in E. exact E. }
  destruct bs as [buf' source']. cbn [fst snd] in Hbs. destruct Hbs as [Hb' ->].
  set (byteV' := if Z.land j 7 =? 7
                 then nth (Z.to_nat (Z.shiftr (Z.land j 255) 3))
                        (HashSha256 (source_input seed r j)) 0
                 else byteV).
  assert (Hv' : byteV' = nth (Z.to_nat (Z.shiftr (Z.land j 255) 3))
                           (HashSha256 (source_input seed r j)) 0).
  { unfold byteV'. destruct (Z.land j 7 =? 7) eqn:E; [reflexivity|].
    apply Hv. apply Z.eqb_neq in E. exact E. }
  assert (Hbit : Z.land (Z.shiftr byteV' (Z.land j 7)) 1 = round_bit HashSha256 seed r j).
  { rewrite Hv'. reflexivity. }
  rewrite Hbit.
  destruct (round_bit HashSha256 seed r j =? 1) eqn:Eb.
  - assert (E0 : ((0 <=? i) && (0 <=? j)) = true)
      by (rewrite andb_true_iff, !Z.leb_le; lia).
    rewrite E0.
    destruct (lookup_lt_is_Some_2 input (Z.to_nat i) ltac:(lia)) as [xi Hxi].
    destruct (lookup_lt_is_Some_2 input (Z.to_nat j) ltac:(lia)) as [xj Hxj].
    rewrite Hxi, Hxj. cbn [mbind option_bind].
    eexists. split; [reflexivity|]. cbn [ss_buf ss_byteV ss_input ss_source].
    split; [split; [exact Hb'|split; [reflexivity|exact Hv']]|].
    split; [rewrite !length_insert; reflexivity|].
    intros x. unfold transpose.
    destruct (Z.of_nat x =? i) eqn:Ei; [apply Z.eqb_eq in Ei|apply Z.eqb_neq in Ei].
    + rewrite list_lookup_insert_ne by lia.
      replace x with (Z.to_nat i) by lia.
      rewrite list_lookup_insert_eq by lia. symmetry. exact Hxj.
    + destruct (Z.of_nat x =? j) eqn:Ej; [apply Z.eqb_eq in Ej|apply Z.eqb_neq in Ej].
      * replace x with (Z.to_nat j) by lia.
        rewrite list_lookup_insert_eq by (rewrite length_insert; lia).
        symmetry. exact Hxi.
      * rewrite !list_lookup_insert_ne by lia. rewrite Nat2Z.id. reflexivity.
  - eexists. split; [reflexivity|]. cbn [ss_buf ss_byteV ss_input ss_source].
    split; [split; [exact Hb'|split; [reflexivity|exact Hv']]|].
    split; [reflexivity|].
    intros x. rewrite Nat2Z.id. reflexivity.
Qed.

Lemma sweep_map_nonneg bit c lo hi x :
  0 <= lo -> 2 * (hi - 1) < c -> 0 <= x -> 0 <= sweep_map bit c lo hi x.
Proof.
  intros Hlo Hc Hx. unfold sweep_map.
  destruct ((lo <=? x) && (x <? hi) || (c - hi <? x) && (x <=? c - lo)) eqn:E;
    [|exact Hx].
  destruct (_ =? 1); [|exact Hx].
  rewrite orb_true_iff, !andb_true_iff, !Z.leb_le, !Z.ltb_lt in E. lia.
Qed.

Lemma sweep_map_empty bit c lo x :
  2 * (lo - 1) < c -> sweep_map bit c lo lo x = x.
Proof.
  intros Hc. unfold sweep_map.
  destruct ((lo <=? x) && (x <? lo) || (c - lo <? x) && (x <=? c - lo)) eqn:E;
    [|reflexivity].
  rewrite orb_true_iff, !andb_true_iff, !Z.leb_le, !Z.ltb_lt in E. lia.
Qed.

(** Exchanging the pair [(i, c - i)] first and sweeping the pairs from
    [i + 1] on afterwards is the sweep from [i] on. *)
Lemma sweep_map_step bit c i hi x :
  0 <= i < hi -> 2 * (hi - 1) < c ->
  (if bit (c - i) =? 1
   then transpose i (c - i) (sweep_map bit c (i + 1) hi x)
   else sweep_map bit c (i + 1) hi x)
  = sweep_map bit c i hi x.
Proof.
  intros Hi Hc.
  destruct (decide (x = i)) as [->|Hxi]; [|destruct (decide (x = c - i)) as [->|Hxj]].
  - unfold sweep_map.
    assert (E1 : ((i + 1 <=? i) && (i <? hi) || (c - hi <? i) && (i <=? c - (i + 1))) = false).
    { rewrite orb_false_iff, !andb_false_iff, !Z.leb_gt, !Z.ltb_ge. lia. }
    assert (E2 : ((i <=? i) && (i <? hi) || (c - hi <? i) && (i <=? c - i)) = true).
    { rewrite orb_true_iff, !andb_true_iff, !Z.leb_le, !Z.ltb_lt. lia. }
    rewrite E1, E2. rewrite Z.max_r by lia.
    unfold transpose. rewrite Z.eqb_refl. reflexivity.
  - unfold sweep_map.
    assert (E1 : ((i + 1 <=? c - i) && (c - i <? hi)
                  || (c - hi <? c - i) && (c - i <=? c - (i + 1))) = false).
    { rewrite orb_false_iff, !andb_false_iff, !Z.leb_gt, !Z.ltb_ge. lia. }
    assert (E2 : ((i <=? c - i) && (c - i <? hi)
                  || (c - hi <? c - i) && (c - i <=? c - i)) = true).
    { rewrite orb_true_iff, !andb_true_iff, !Z.leb_le, !Z.ltb_lt. lia. }
    rewrite E1, E2. rewrite Z.max_l by lia.
    replace (c - (c - i)) with i by lia.
    unfold transpose. rewrite Z.eqb_refl.
    destruct (c - i =? i) eqn:E; [apply Z.eqb_eq in E; lia|].
    destruct (bit (c - i) =? 1); reflexivity.
  - assert (Hsame : sweep_map bit c (i + 1) hi x = sweep_map bit c i hi x).
    { unfold sweep_map.
      assert (E : ((i + 1 <=? x) && (x <? hi) || (c - hi <? x) && (x <=? c - (i + 1)))
                  = ((i <=? x) && (x <? hi) || (c - hi <? x) && (x <=? c - i))).
      { apply eq_true_iff_eq.
        rewrite !orb_true_iff, !andb_true_iff, !Z.leb_le, !Z.ltb_lt. lia. }
      rewrite E. reflexivity. }
    rewrite Hsame.
    assert (Hfix : transpose i (c - i) (sweep_map bit c i hi x) = sweep_map bit c i hi x).
    { unfold transpose, sweep_map.
      destruct ((i <=? x) && (x <? hi) || (c - hi <? x) && (x <=? c - i));
        [destruct (bit (Z.max x (c - x)) =? 1)|];
        repeat match goal with
               | |- context [?a =? ?b] =>
                   destruct (a =? b) eqn:?;
                   [match goal with H : (a =? b) = true |- _ => apply Z.eqb_eq in H end
                   |match goal with H : (a =? b) = false |- _ => apply Z.eqb_neq in H end]
               end; lia. }
    rewrite Hfix. destruct (bit (c - i) =? 1); reflexivity.
Qed.

(** A sweep visits the pairs [(i, c - i)], [(i+1, c-i-1)], ... up to the
    mirror point, and exchanges those whose bit is set. *)
Lemma sweep_spec r c hi :
  forall (fuel : nat) (i : Z) (st : sweep_state),
    Z.of_nat fuel = hi - i -> 0 <= i -> 2 * (hi - 1) < c ->
    c - i < Z.of_nat (length (ss_input st)) ->
    Z.of_nat (length (ss_input st)) <= 2 ^ 40 ->
    cache_ok HashSha256 seed r (c - i) st ->
    exists st',
      sweep HashSha256 fuel hi i (c - i) st = Some st' /\
      buf_round seed r (ss_buf st') /\
      length (ss_input st') = length (ss_input st) /\
      forall x : nat,
        ss_input st' !! x
        = ss_input st !! Z.to_nat
            (sweep_map (round_bit HashSha256 seed r) c i hi (Z.of_nat x)).
Proof.
  induction fuel as [|fuel IH]; intros i st Hf Hi Hc Hj Hn Hk.
  - exists st. split; [reflexivity|]. split; [apply Hk|]. split; [reflexivity|].
    intros x. replace hi with i by lia.
    rewrite sweep_map_empty by lia. rewrite Nat2Z.id. reflexivity.
  - cbn [sweep].
    assert (Hlt : (i <? hi) = true) by (apply Z.ltb_lt; lia). rewrite Hlt.
    destruct (swapOrNot_spec r i (c - i) st Hk ltac:(lia) Hj Hn)
      as (st1 & -> & Hfull & Hlen1 & Hlook1).
    cbn [mbind option_bind].
    rewrite (wrap64_small (i + 1)) by lia.
    rewrite (wrap64_small (c - i - 1)) by lia.
    replace (c - i - 1) with (c - (i + 1)) by lia.
    destruct (IH (i + 1) st1) as (st' & Hs & Hb' & Hlen' & Hlook');
      [lia | lia | exact Hc | rewrite Hlen1; lia | rewrite Hlen1; exact Hn | |].
    { replace (c - (i + 1)) with (c - i - 1) by lia.
      apply cache_step; [exact Hfull | lia]. }
    exists st'. split; [exact Hs|]. split; [exact Hb'|].
    split; [rewrite Hlen', Hlen1; reflexivity|].
    intros x. rewrite Hlook', Hlook1.
    rewrite Z2Nat.id by (apply sweep_map_nonneg; lia).
    rewrite sweep_map_step by lia. reflexivity.
Qed.

(** The two sweeps of a round, the part up to the pivot and the part after
    it, together are the round's map on indices. *)
Lemma sweeps_round_map n r x :
  0 < n -> 0 <= x < n ->
  let p := round_pivot HashSha256 seed n r in
  sweep_map (round_bit HashSha256 seed r) p 0 ((p + 1) / 2)
    (sweep_map (round_bit HashSha256 seed r) (p + n) (p + 1) ((p + n + 1) / 2) x)
  = round_map HashSha256 seed n r x.
Proof.
  intros Hn Hx p. unfold round_map. fold p.
  pose proof (pivot_range HashSha256 seed n Hn r) as Hp. fold p in Hp.
  rewrite (flip_cases n p x Hn Hp Hx).
  set (m1 := (p + 1) / 2). set (m2 := (p + n + 1) / 2).
  assert (Hm1 : 2 * m1 <= p + 1 < 2 * m1 + 2)
    by (unfold m1; Z.div_mod_to_equations; lia).
  assert (Hm2 : 2 * m2 <= p + n + 1 < 2 * m2 + 2)
    by (unfold m2; Z.div_mod_to_equations; lia).
  destruct (x <=? p) eqn:Exp; [apply Z.leb_le in Exp|apply Z.leb_gt in Exp].
  - assert (E2 : sweep_map (round_bit HashSha256 seed r) (p + n) (p + 1) m2 x = x).
    { unfold sweep_map.
      assert (E : ((p + 1 <=? x) && (x <? m2)
                   || (p + n - m2 <? x) && (x <=? p + n - (p + 1))) = false).
      { rewrite orb_false_iff, !andb_false_iff, !Z.leb_gt, !Z.ltb_ge. lia. }
      rewrite E. reflexivity. }
    rewrite E2. unfold sweep_map.
    destruct ((0 <=? x) && (x <? m1) || (p - m1 <? x) && (x <=? p - 0)) eqn:E;
      [reflexivity|].
    rewrite orb_false_iff, !andb_false_iff, !Z.leb_gt, !Z.ltb_ge in E.
    assert (Hmid : p - x = x) by lia. rewrite Hmid.
    destruct (_ =? 1); reflexivity.
  - assert (E1 : forall y, p < y ->
               sweep_map (round_bit HashSha256 seed r) p 0 m1 y = y).
    { intros y Hy. unfold sweep_map.
      assert (E : ((0 <=? y) && (y <? m1) || (p - m1 <? y) && (y <=? p - 0)) = false).
      { rewrite orb_false_iff, !andb_false_iff, !Z.leb_gt, !Z.ltb_ge. lia. }
      rewrite E. reflexivity. }
    unfold sweep_map at 2.
    destruct ((p + 1 <=? x) && (x <? m2)
              || (p + n - m2 <? x) && (x <=? p + n - (p + 1))) eqn:E.
    + destruct (round_bit HashSha256 seed r (Z.max x (p + n - x)) =? 1);
        apply E1; lia.
    + rewrite orb_false_iff, !andb_false_iff, !Z.leb_gt, !Z.ltb_ge in E.
      assert (Hmid : p + n - x = x) by lia. rewrite Hmid.
      rewrite E1 by lia. destruct (_ =? 1); reflexivity.
Qed.

(** One pass of the outer loop of [innerShuffleList] moves to every
    position [x] the element that was at [round_map r x]. *)
Lemma shuffleList_body_spec buf r (input : list Z) :
  buf_ok seed buf ->
  2 <= Z.of_nat (length input) <= 2 ^ 40 ->
  exists buf' input',
    shuffleList_body HashSha256 buf r input (Z.of_nat (length input))
    = Some (buf', input') /\
    buf_ok seed buf' /\ length input' = length input /\
    forall x : nat, (x < length input)%nat ->
      input' !! x
      = input !! Z.to_nat
          (round_map HashSha256 seed (Z.of_nat (length input)) r (Z.of_nat x)).
Proof.
  intros Hb Hn. set (n := Z.of_nat (length input)) in *.
  assert (Hpos : 0 < n) by lia.
  unfold shuffleList_body.
  rewrite (buf_round_prefix seed seed_length buf r Hb).
  destruct (n =? 0) eqn:E0; [apply Z.eqb_eq in E0; lia|].
  fold (round_pivot HashSha256 seed n r).
  set (p := round_pivot HashSha256 seed n r).
  pose proof (pivot_range HashSha256 seed n Hpos r) as Hp. fold p in Hp.
  pose proof (buf_round_of_ok buf r Hb) as Hb1.
  rewrite (wrap64_small (p + 1)) by lia.
  rewrite (wrap64_small (p + n)) by lia.
  rewrite (wrap64_small (p + n + 1)) by lia.
  rewrite (wrap64_small (n - 1)) by lia.
  rewrite !shiftr_1.
  set (m1 := (p + 1) / 2). set (m2 := (p + n + 1) / 2).
  assert (Hm1 : 2 * m1 <= p + 1 < 2 * m1 + 2)
    by (unfold m1; Z.div_mod_to_equations; lia).
  assert (Hm2 : 2 * m2 <= p + n + 1 < 2 * m2 + 2)
    by (unfold m2; Z.div_mod_to_equations; lia).
  rewrite (PutUint32_window _ r p Hb1) by lia.
  set (st0 := SweepState _ _ _ _).
  assert (Hk0 : cache_ok HashSha256 seed r (p - 0) st0).
  { rewrite Z.sub_0_r. unfold st0. split; [|split]; cbn [ss_buf ss_source ss_byteV].
    - apply buf_round_of_window. apply length_le_bytes.
    - intros _. reflexivity.
    - intros _. reflexivity. }
  destruct (sweep_spec r p m1 (Z.to_nat m1) 0 st0)
    as (st1 & Hs1 & Hb2 & Hlen1 & Hlook1);
    [lia | lia | lia | unfold st0; cbn [ss_input]; fold n; lia
    | unfold st0; cbn [ss_input]; fold n; lia | exact Hk0 |].
  rewrite Z.sub_0_r in Hs1. rewrite Hs1. cbn [mbind option_bind].
  unfold st0 in Hlen1, Hlook1. cbn [ss_input] in Hlen1, Hlook1.
  rewrite (PutUint32_window _ r (n - 1) Hb2) by lia.
  set (st2 := SweepState _ _ _ _).
  assert (Hk2 : cache_ok HashSha256 seed r (p + n - (p + 1)) st2).
  { replace (p + n - (p + 1)) with (n - 1) by lia.
    unfold st2. split; [|split]; cbn [ss_buf ss_source ss_byteV].
    - apply buf_round_of_window. apply length_le_bytes.
    - intros _. reflexivity.
    - intros _. reflexivity. }
  destruct (sweep_spec r (p + n) m2 (Z.to_nat (m2 - (p + 1))) (p + 1) st2)
    as (st3 & Hs3 & Hb3 & Hlen3 & Hlook3);
    [lia | lia | lia | unfold st2; cbn [ss_input]; rewrite Hlen1; fold n; lia
    | unfold st2; cbn [ss_input]; rewrite Hlen1; fold n; lia | exact Hk2 |].
  replace (p + n - (p + 1)) with (n - 1) in Hs3 by lia.
  rewrite Hs3. cbn [mbind option_bind].
  unfold st2 in Hlen3, Hlook3. cbn [ss_input] in Hlen3, Hlook3.
  exists (ss_buf st3), (ss_input st3). split; [reflexivity|].
  split; [apply (buf_ok_of_round r); exact Hb3|].
  split; [rewrite Hlen3, Hlen1; reflexivity|].
  intros x Hx. rewrite Hlook3, Hlook1.
  rewrite Z2Nat.id by (apply sweep_map_nonneg; lia).
  pose proof (sweeps_round_map n r (Z.of_nat x) Hpos ltac:(lia)) as Hsr.
  cbv zeta in Hsr. fold p in Hsr. fold m1 m2 in Hsr. rewrite Hsr. reflexivity.
Qed.

Lemma list_rounds_spec_one r (input out : list Z) :
  length out = length input ->
  (forall x : nat, (x < length input)%nat ->
     out !! x
     = input !! Z.to_nat
         (round_map HashSha256 seed (Z.of_nat (length input)) r (Z.of_nat x))) ->
  list_rounds_spec HashSha256 seed [r] input out.
Proof. intros Hlen Hlook. split; [exact Hlen|]. intros x Hx. apply Hlook. exact Hx. Qed.

Lemma list_rounds_spec_cons r rs (input mid out : list Z) :
  (0 < length input)%nat ->
  length mid = length input ->
  (forall x : nat, (x < length input)%nat ->
     mid !! x
     = input !! Z.to_nat
         (round_map HashSha256 seed (Z.of_nat (length input)) r (Z.of_nat x))) ->
  list_rounds_spec HashSha256 seed rs mid out ->
  list_rounds_spec HashSha256 seed (r :: rs) input out.
Proof.
  intros Hpos Hlen Hlook [Hlen' Hlook']. split; [rewrite Hlen', Hlen; reflexivity|].
  intros x Hx. rewrite Hlook' by lia. rewrite Hlen.
  pose proof (apply_rounds_range HashSha256 seed (Z.of_nat (length input))
                ltac:(lia) (rev rs) (Z.of_nat x) ltac:(lia)) as Hr.
  rewrite Hlook by lia.
  rewrite Z2Nat.id by lia.
  cbn [rev].
  rewrite (apply_rounds_app HashSha256 seed (Z.of_nat (length input)) ltac:(lia)).
  reflexivity.
Qed.

Lemma shuffleList_loop_up (ShuffleRoundCount : Z) :
  forall (k : nat) (fuel : nat) (r : nat) (buf input : list Z),
    (r + S k = round_passes ShuffleRoundCount)%nat -> (S k <= fuel)%nat ->
    buf_ok seed buf -> 2 <= Z.of_nat (length input) <= 2 ^ 40 ->
    exists out,
      shuffleList_loop HashSha256 fuel true (wrap8 ShuffleRoundCount)
        (Z.of_nat r) buf input (Z.of_nat (length input)) = Ok out /\
      list_rounds_spec HashSha256 seed (map Z.of_nat (seq r (S k))) input out.
Proof.
  pose proof (wrap8_range ShuffleRoundCount) as Hw.
  induction k as [|k IH]; intros fuel r buf input Hr Hf Hb Hn;
    (destruct fuel as [|fuel]; [lia|]); cbn [shuffleList_loop];
    destruct (shuffleList_body_spec buf (Z.of_nat r) input Hb Hn)
      as (buf' & mid & -> & Hb' & Hlen & Hlook);
    unfold round_passes in Hr;
    destruct (wrap8 ShuffleRoundCount =? 0) eqn:E0;
    [apply Z.eqb_eq in E0|apply Z.eqb_neq in E0| apply Z.eqb_eq in E0|apply Z.eqb_neq in E0].
  - assert (Hr' : Z.of_nat r + 1 = 256) by lia. rewrite Hr', E0.
    exists mid. split; [reflexivity|]. apply list_rounds_spec_one; assumption.
  - rewrite wrap8_small by (change (2 ^ 8) with 256; lia).
    assert (Hr' : Z.of_nat r + 1 = wrap8 ShuffleRoundCount) by lia.
    rewrite Hr', Z.eqb_refl.
    exists mid. split; [reflexivity|]. apply list_rounds_spec_one; assumption.
  - rewrite wrap8_small by (change (2 ^ 8) with 256; lia).
    assert (Hne : (Z.of_nat r + 1 =? wrap8 ShuffleRoundCount) = false)
      by (apply Z.eqb_neq; lia).
    rewrite Hne.
    replace (Z.of_nat r + 1) with (Z.of_nat (S r)) by lia.
    rewrite <- Hlen.
    destruct (IH fuel (S r) buf' mid) as (out & -> & Hspec);
      [unfold round_passes; rewrite (proj2 (Z.eqb_eq _ _) E0); lia
      | lia | exact Hb' | rewrite Hlen; exact Hn |].
    exists out. split; [reflexivity|].
    rewrite <- (cons_seq (S k) r). cbn [map].
    apply (list_rounds_spec_cons _ _ input mid out); [lia | assumption | assumption | exact Hspec].
  - rewrite wrap8_small by (change (2 ^ 8) with 256; lia).
    assert (Hne : (Z.of_nat r + 1 =? wrap8 ShuffleRoundCount) = false)
      by (apply Z.eqb_neq; lia).
    rewrite Hne.
    replace (Z.of_nat r + 1) with (Z.of_nat (S r)) by lia.
    rewrite <- Hlen.
    destruct (IH fuel (S r) buf' mid) as (out & -> & Hspec);
      [unfold round_passes; rewrite (proj2 (Z.eqb_neq _ _) E0); lia
      | lia | exact Hb' | rewrite Hlen; exact Hn |].
    exists out. split; [reflexivity|].
    rewrite <- (cons_seq (S k) r). cbn [map].
    apply (list_rounds_spec_cons _ _ input mid out); [lia | assumption | assumption | exact Hspec].
Qed.

Lemma shuffleList_loop_down (rounds : Z) :
  forall (r : nat) (fuel : nat) (buf input : list Z),
    (r < 256)%nat -> (S r <= fuel)%nat ->
    buf_ok seed buf -> 2 <= Z.of_nat (length input) <= 2 ^ 40 ->
    exists out,
      shuffleList_loop HashSha256 fuel false rounds (Z.of_nat r) buf input
        (Z.of_nat (length input)) = Ok out /\
      list_rounds_spec HashSha256 seed (rev (map Z.of_nat (seq 0 (S r)))) input out.
Proof.
  induction r as [|r IH]; intros fuel buf input Hr Hf Hb Hn;
    (destruct fuel as [|fuel]; [lia|]).
  - cbn [shuffleList_loop]. change (Z.of_nat 0) with 0.
    destruct (shuffleList_body_spec buf 0 input Hb Hn)
      as (buf' & mid & -> & Hb' & Hlen & Hlook).
    cbn [Z.eqb]. exists mid. split; [reflexivity|].
    apply list_rounds_spec_one; assumption.
  - cbn [shuffleList_loop].
    destruct (shuffleList_body_spec buf (Z.of_nat (S r)) input Hb Hn)
      as (buf' & mid & -> & Hb' & Hlen & Hlook).
    assert (Hne : (Z.of_nat (S r) =? 0) = false) by (apply Z.eqb_neq; lia).
    rewrite Hne.
    rewrite wrap8_small by (change (2 ^ 8) with 256; lia).
    replace (Z.of_nat (S r) - 1) with (Z.of_nat r) by lia.
    rewrite <- Hlen.
    destruct (IH fuel buf' mid) as (out & -> & Hspec);
      [lia | lia | exact Hb' | rewrite Hlen; exact Hn |].
    exists out. split; [reflexivity|].
    rewrite (seq_S (S r)), map_app, rev_app_distr. cbn [map rev app].
    apply (list_rounds_spec_cons _ _ input mid out); [lia | assumption | assumption | exact Hspec].
Qed.

End ListShuffle.

(** With a round count whose low byte is not zero and a list of 2 to [2^40]
    elements, [innerShuffleList] passes over the rounds [0 .. passes-1],
    ascending to shuffle and descending to unshuffle. *)
Lemma innerShuffleList_rounds (HashSha256 : list Z -> list Z)
    (ShuffleRoundCount : Z) (seed input : list Z) (shuffle : bool) :
  length seed = 32%nat -> wrap8 ShuffleRoundCount <> 0 ->
  2 <= Z.of_nat (length input) <= 2 ^ 40 ->
  exists out,
    innerShuffleList HashSha256 ShuffleRoundCount input seed shuffle = Ok out /\
    list_rounds_spec HashSha256 seed
      (if shuffle then rounds_up ShuffleRoundCount
       else rev (rounds_up ShuffleRoundCount)) input out.
Proof.
  intros Hs Hc Hn. unfold innerShuffleList.
  assert (E1 : (length input <=? 1)%nat = false) by (apply Nat.leb_gt; lia).
  rewrite E1.
  assert (E2 : (maxShuffleListSize <? Z.of_nat (length input)) = false)
    by (apply Z.ltb_ge; unfold maxShuffleListSize; lia).
  rewrite E2.
  assert (E3 : (wrap8 ShuffleRoundCount =? 0) = false) by (apply Z.eqb_neq; exact Hc).
  rewrite E3.
  pose proof (round_passes_range ShuffleRoundCount) as Hp.
  pose proof (buf_ok_init seed Hs) as Hb.
  unfold rounds_up. destruct shuffle.
  - destruct (shuffleList_loop_up HashSha256 seed Hs ShuffleRoundCount
                (round_passes ShuffleRoundCount - 1) round_fuel 0%nat
                (copy_at 0 (take seedSize seed) (repeat 0 totalSize)) input)
      as (out & Ho & Hspec);
      [lia | unfold round_fuel; lia | exact Hb | exact Hn |].
    replace (S (round_passes ShuffleRoundCount - 1))
      with (round_passes ShuffleRoundCount) in Hspec by lia.
    exists out. split; [exact Ho | exact Hspec].
  - rewrite last_round.
    destruct (shuffleList_loop_down HashSha256 seed Hs (wrap8 ShuffleRoundCount)
                (round_passes ShuffleRoundCount - 1)%nat round_fuel
                (copy_at 0 (take seedSize seed) (repeat 0 totalSize)) input)
      as (out & Ho & Hspec);
      [lia | unfold round_fuel; lia | exact Hb | exact Hn |].
    replace (S (round_passes ShuffleRoundCount - 1))
      with (round_passes ShuffleRoundCount) in Hspec by lia.
    exists out. split; [exact Ho | exact Hspec].
Qed.

Lemma identity_list_lookup (n : nat) (x : nat) :
  (x < n)%nat -> identity_list n !! x = Some (Z.of_nat x).
Proof.
  intros Hx. unfold identity_list. rewrite list_lookup_fmap.
  rewrite lookup_seq_lt by exact Hx. reflexivity.
Qed.

Lemma length_identity_list n : length (identity_list n) = n.
Proof. unfold identity_list. rewrite length_map, length_seq. reflexivity. Qed.

(** C2, as stated, fails: with SHA-256, 90 rounds, an all-zero seed and four
    elements, the shuffled identity list starts with 2 while the shuffled
    index of 0 is 1. *)
Lemma list_index_counterexample :
  ShuffleList SHA256.Sum256 90 (identity_list 4) (repeat 0 32%nat)
  = Ok [2; 0; 1; 3] /\
  ShuffledIndex SHA256.Sum256 90 0 4 (repeat 0 32%nat) = Ok 1 /\
  ~ (forall (i : nat) (out : list Z) (v : Z),
       (i < 4)%nat ->
       ShuffleList SHA256.Sum256 90 (identity_list 4) (repeat 0 32%nat) = Ok out ->
       ShuffledIndex SHA256.Sum256 90 (Z.of_nat i) 4 (repeat 0 32%nat) = Ok v ->
       out !! i = Some v).
Proof.
  assert (HL : ShuffleList SHA256.Sum256 90 (identity_list 4) (repeat 0 32%nat)
               = Ok [2; 0; 1; 3]) by (vm_compute; reflexivity).
  assert (HI : ShuffledIndex SHA256.Sum256 90 0 4 (repeat 0 32%nat) = Ok 1)
    by (vm_compute; reflexivity).
  split; [exact HL|]. split; [exact HI|].
  intros H. specialize (H 0%nat [2; 0; 1; 3] 1 ltac:(lia) HL HI).
  discriminate H.
Qed.

(** C2, amended: for a round count that is zero or whose low byte is not
    zero, and [1 < n <= 2^40], [ShuffleList] applied to the identity list
    puts at position [i] the value [UnShuffledIndex(i, n, s)], and
    [UnshuffleList] puts there [ShuffledIndex(i, n, s)]; the mirrored sweep
    with its cached digest and byte is the per-index computation. *)
Theorem list_index_equivalence (HashSha256 : list Z -> list Z)
    (ShuffleRoundCount : Z) (seed : list Z) (n : nat) :
  length seed = 32%nat -> (1 < n)%nat -> Z.of_nat n <= 2 ^ 40 ->
  ShuffleRoundCount = 0 \/ wrap8 ShuffleRoundCount <> 0 ->
  exists out back : list Z,
    ShuffleList HashSha256 ShuffleRoundCount (identity_list n) seed = Ok out /\
    UnshuffleList HashSha256 ShuffleRoundCount (identity_list n) seed = Ok back /\
    length out = n /\ length back = n /\
    forall i : nat, (i < n)%nat ->
      exists u s : Z,
        out !! i = Some u /\
        UnShuffledIndex HashSha256 ShuffleRoundCount (Z.of_nat i) (Z.of_nat n) seed = Ok u /\
        back !! i = Some s /\
        ShuffledIndex HashSha256 ShuffleRoundCount (Z.of_nat i) (Z.of_nat n) seed = Ok s.
Proof.
  intros Hs Hn1 Hn2 [->|Hc].
  - exists (identity_list n), (identity_list n).
    assert (HL : forall b, innerShuffleList HashSha256 0 (identity_list n) seed b
                           = Ok (identity_list n)).
    { intros b. unfold innerShuffleList. rewrite length_identity_list.
      assert (E1 : (n <=? 1)%nat = false) by (apply Nat.leb_gt; lia).
      rewrite E1.
      assert (E2 : (maxShuffleListSize <? Z.of_nat n) = false)
        by (apply Z.ltb_ge; unfold maxShuffleListSize; lia).
      rewrite E2. reflexivity. }
    split; [apply HL|]. split; [apply HL|].
    split; [apply length_identity_list|]. split; [apply length_identity_list|].
    intros i Hi. exists (Z.of_nat i), (Z.of_nat i).
    rewrite identity_list_lookup by exact Hi.
    split; [reflexivity|]. split; [reflexivity|]. split; reflexivity.
  - assert (Hc0 : ShuffleRoundCount <> 0).
    { intros ->. apply Hc. reflexivity. }
    assert (Hlen : 2 <= Z.of_nat (length (identity_list n)) <= 2 ^ 40)
      by (rewrite length_identity_list; lia).
    destruct (innerShuffleList_rounds HashSha256 ShuffleRoundCount seed
                (identity_list n) true Hs Hc Hlen) as (out & HO & HlO & HxO).
    destruct (innerShuffleList_rounds HashSha256 ShuffleRoundCount seed
                (identity_list n) false Hs Hc Hlen) as (back & HB & HlB & HxB).
    rewrite length_identity_list in HlO, HlB, HxO, HxB.
    exists out, back. split; [exact HO|]. split; [exact HB|].
    split; [exact HlO|]. split; [exact HlB|].
    intros i Hi.
    pose proof (apply_rounds_range HashSha256 seed (Z.of_nat n) ltac:(lia)
                  (rev (rounds_up ShuffleRoundCount)) (Z.of_nat i) ltac:(lia)) as Hu.
    pose proof (apply_rounds_range HashSha256 seed (Z.of_nat n) ltac:(lia)
                  (rev (rev (rounds_up ShuffleRoundCount))) (Z.of_nat i) ltac:(lia)) as Hd.
    eexists _, _.
    rewrite (HxO i Hi), (HxB i Hi).
    rewrite !identity_list_lookup by lia.
    rewrite !Z2Nat.id by lia.
    unfold UnShuffledIndex, ShuffledIndex.
    rewrite !innerShuffledIndex_rounds by (try assumption; lia).
    rewrite rev_involutive.
    split; [reflexivity|]. split; [reflexivity|]. split; reflexivity.
Qed.

Lemma list_index_equivalence_witness :
  exists out back : list Z,
    ShuffleList SHA256.Sum256 90 (identity_list 4) (repeat 0 32%nat) = Ok out /\
    UnshuffleList SHA256.Sum256 90 (identity_list 4) (repeat 0 32%nat) = Ok back /\
    length out = 4%nat /\ length back = 4%nat /\
    forall i : nat, (i < 4)%nat ->
      exists u s : Z,
        out !! i = Some u /\
        UnShuffledIndex SHA256.Sum256 90 (Z.of_nat i) (Z.of_nat 4) (repeat 0 32%nat) = Ok u /\
        back !! i = Some s /\
        ShuffledIndex SHA256.Sum256 90 (Z.of_nat i) (Z.of_nat 4) (repeat 0 32%nat) = Ok s.
Proof.
  apply list_index_equivalence; [reflexivity | lia | vm_compute; discriminate | right; vm_compute; discriminate].
Defined.

(** ** The shuffles as permutations *)

Lemma index_passes_rev c b : index_passes c (negb b) = rev (index_passes c b).
Proof.
  unfold index_passes. destruct (c =? 0); [reflexivity|].
  destruct b; cbn [negb]; [reflexivity|]. rewrite rev_involutive. reflexivity.
Qed.

Lemma list_passes_rev c b : list_passes c (negb b) = rev (list_passes c b).
Proof.
  unfold list_passes. destruct (wrap8 c =? 0); [reflexivity|].
  destruct b; cbn [negb]; [reflexivity|]. rewrite rev_involutive. reflexivity.
Qed.

Lemma list_passes_index_passes c b :
  c = 0 \/ wrap8 c <> 0 -> list_passes c b = index_passes c b.
Proof.
  unfold list_passes, index_passes. intros [->|Hc]; [reflexivity|].
  destruct (wrap8 c =? 0) eqn:E; [apply Z.eqb_eq in E; contradiction|].
  destruct (c =? 0) eqn:E0; [|reflexivity].
  apply Z.eqb_eq in E0. subst c. exfalso. apply Hc. reflexivity.
Qed.

(** Whatever the round count, [innerShuffledIndex] applies [index_passes] to
    an index within bounds. *)
Lemma innerShuffledIndex_spec (HashSha256 : list Z -> list Z)
    (ShuffleRoundCount : Z) (seed : list Z) (index indexCount : Z)
    (shuffle : bool) :
  length seed = 32%nat -> indexCount <= 2 ^ 40 -> 0 <= index < indexCount ->
  innerShuffledIndex HashSha256 ShuffleRoundCount index indexCount seed shuffle
  = Ok (apply_rounds HashSha256 seed indexCount
          (index_passes ShuffleRoundCount shuffle) index).
Proof.
  intros Hs Hn Hi. unfold index_passes.
  destruct (ShuffleRoundCount =? 0) eqn:E.
  - unfold innerShuffledIndex. rewrite E. reflexivity.
  - apply Z.eqb_neq in E. apply innerShuffledIndex_rounds; assumption.
Qed.

(** Two indices with the same image under the rounds are the same. *)
Lemma apply_rounds_inj (HashSha256 : list Z -> list Z) (seed : list Z)
    (n : Z) (rs : list Z) (i j : Z) :
  0 <= i < n -> 0 <= j < n ->
  apply_rounds HashSha256 seed n rs i = apply_rounds HashSha256 seed n rs j ->
  i = j.
Proof.
  intros Hi Hj E. assert (Hn : 0 < n) by lia.
  rewrite <- (apply_rounds_rev HashSha256 seed n Hn rs i Hi).
  rewrite <- (apply_rounds_rev HashSha256 seed n Hn rs j Hj).
  rewrite E. reflexivity.
Qed.

(** Running the reversed rounds first and the rounds after is the identity
    as well. *)
Lemma apply_rounds_rev_l (HashSha256 : list Z -> list Z) (seed : list Z)
    (n : Z) (rs : list Z) (i : Z) :
  0 <= i < n ->
  apply_rounds HashSha256 seed n rs (apply_rounds HashSha256 seed n (rev rs) i)
  = i.
Proof.
  intros Hi. assert (Hn : 0 < n) by lia.
  rewrite <- (rev_involutive rs) at 1.
  apply apply_rounds_rev; assumption.
Qed.

(** Whatever the round count, [innerShuffleList] on a list within the size
    bound returns a list that [list_passes] describes. *)
Lemma innerShuffleList_spec (HashSha256 : list Z -> list Z)
    (ShuffleRoundCount : Z) (seed input : list Z) (shuffle : bool) :
  length seed = 32%nat -> Z.of_nat (length input) <= 2 ^ 40 ->
  exists out,
    innerShuffleList HashSha256 ShuffleRoundCount input seed shuffle = Ok out /\
    list_rounds_spec HashSha256 seed (list_passes ShuffleRoundCount shuffle)
      input out.
Proof.
  intros Hs Hn.
  destruct (Nat.leb_spec (length input) 1) as [Hle|Hgt].
  - exists input. split.
    + unfold innerShuffleList.
      assert (E : (length input <=? 1)%nat = true) by (apply Nat.leb_le; exact Hle).
      rewrite E. reflexivity.
    + split; [reflexivity|]. intros x Hx.
      pose proof (apply_rounds_range HashSha256 seed (Z.of_nat (length input))
                    ltac:(lia) (rev (list_passes ShuffleRoundCount shuffle))
                    (Z.of_nat x) ltac:(lia)) as Hr.
      f_equal. lia.
  - unfold list_passes. destruct (wrap8 ShuffleRoundCount =? 0) eqn:E.
    + exists input. split.
      * unfold innerShuffleList.
        assert (E1 : (length input <=? 1)%nat = false) by (apply Nat.leb_gt; lia).
        rewrite E1.
        assert (E2 : (maxShuffleListSize <? Z.of_nat (length input)) = false)
          by (apply Z.ltb_ge; unfold maxShuffleListSize; lia).
        rewrite E2, E. reflexivity.
      * split; [reflexivity|]. intros x Hx. cbn. rewrite Nat2Z.id. reflexivity.
    + apply Z.eqb_neq in E.
      apply innerShuffleList_rounds; [assumption | assumption | lia].
Qed.

(** A list that the passes over [rs] produce is a permutation of the input. *)
Lemma list_rounds_spec_Permutation (HashSha256 : list Z -> list Z)
    (seed rs input out : list Z) :
  list_rounds_spec HashSha256 seed rs input out -> out ≡ₚ input.
Proof.
  intros [Hlen Hx]. apply Permutation_inj. split; [exact Hlen|].
  set (n := length input) in *.
  set (f := fun x : nat =>
              if decide (x < n)%nat
              then Z.to_nat (apply_rounds HashSha256 seed (Z.of_nat n) (rev rs)
                               (Z.of_nat x))
              else x).
  assert (Hf : forall x, (x < n)%nat -> (f x < n)%nat).
  { intros x Hlt. unfold f. destruct (decide (x < n)%nat); [|lia].
    pose proof (apply_rounds_range HashSha256 seed (Z.of_nat n) ltac:(lia)
                  (rev rs) (Z.of_nat x) ltac:(lia)). lia. }
  exists f. split.
  - intros x y Exy.
    destruct (decide (x < n)%nat) as [Hxn|Hxn], (decide (y < n)%nat) as [Hyn|Hyn].
    + pose proof (apply_rounds_range HashSha256 seed (Z.of_nat n) ltac:(lia)
                    (rev rs) (Z.of_nat x) ltac:(lia)) as Hrx.
      pose proof (apply_rounds_range HashSha256 seed (Z.of_nat n) ltac:(lia)
                    (rev rs) (Z.of_nat y) ltac:(lia)) as Hry.
      unfold f in Exy.
      destruct (decide (x < n)%nat); [|lia]. destruct (decide (y < n)%nat); [|lia].
      assert (E : Z.of_nat x = Z.of_nat y).
      { apply (apply_rounds_inj HashSha256 seed (Z.of_nat n) (rev rs)); lia. }
      lia.
    + pose proof (Hf x Hxn) as Hfx. rewrite Exy in Hfx. unfold f in Hfx.
      destruct (decide (y < n)%nat); lia.
    + pose proof (Hf y Hyn) as Hfy. rewrite <- Exy in Hfy. unfold f in Hfy.
      destruct (decide (x < n)%nat); lia.
    + unfold f in Exy.
      destruct (decide (x < n)%nat); [lia|]. destruct (decide (y < n)%nat); [lia|].
      exact Exy.
  - intros x. unfold f. destruct (decide (x < n)%nat) as [Hxn|Hxn].
    + apply Hx. exact Hxn.
    + rewrite !lookup_ge_None_2 by lia. reflexivity.
Qed.

(** Passing over the rounds and then over the reversed rounds gives the
    list back. *)
Lemma list_rounds_spec_inverse (HashSha256 : list Z -> list Z)
    (seed rs input mid out : list Z) :
  list_rounds_spec HashSha256 seed rs input mid ->
  list_rounds_spec HashSha256 seed (rev rs) mid out ->
  out = input.
Proof.
  intros [Hl1 H1] [Hl2 H2]. apply list_eq. intros x.
  destruct (decide (x < length input)%nat) as [Hx|Hx].
  - rewrite H2 by lia. rewrite Hl1.
    pose proof (apply_rounds_range HashSha256 seed (Z.of_nat (length input))
                  ltac:(lia) (rev (rev rs)) (Z.of_nat x) ltac:(lia)) as Hr.
    rewrite H1 by lia. rewrite Z2Nat.id by lia.
    rewrite rev_involutive.
    rewrite apply_rounds_rev by lia. rewrite Nat2Z.id. reflexivity.
  - rewrite !lookup_ge_None_2 by lia. reflexivity.
Qed.

(** X1: for a 32-byte seed and an index within an index count of at most
    [2^40], [ShuffledIndex] and [UnShuffledIndex] return an index below the
    index count, whatever the configured round count. *)
Theorem shuffled_index_in_range (HashSha256 : list Z -> list Z)
    (ShuffleRoundCount : Z) (seed : list Z) (n i : Z) :
  length seed = 32%nat -> n <= 2 ^ 40 -> 0 <= i < n ->
  exists j u : Z,
    ShuffledIndex HashSha256 ShuffleRoundCount i n seed = Ok j /\ 0 <= j < n /\
    UnShuffledIndex HashSha256 ShuffleRoundCount i n seed = Ok u /\ 0 <= u < n.
Proof.
  intros Hs Hn Hi. unfold ShuffledIndex, UnShuffledIndex.
  rewrite !innerShuffledIndex_spec by assumption.
  eexists _, _. split; [reflexivity|].
  split; [apply apply_rounds_range; [lia | exact Hi]|].
  split; [reflexivity|].
  apply apply_rounds_range; [lia | exact Hi].
Qed.

Lemma shuffled_index_in_range_witness :
  exists j u : Z,
    ShuffledIndex SHA256.Sum256 90 5 7 (repeat 0 32%nat) = Ok j /\ 0 <= j < 7 /\
    UnShuffledIndex SHA256.Sum256 90 5 7 (repeat 0 32%nat) = Ok u /\ 0 <= u < 7.
Proof. apply shuffled_index_in_range; [reflexivity | lia | lia]. Defined.

(** X2: unshuffling first and shuffling after gives the index back as well:
    [ShuffledIndex(UnShuffledIndex(i, n, s), n, s) == i]. *)
Theorem unshuffle_then_shuffle (HashSha256 : list Z -> list Z)
    (ShuffleRoundCount : Z) (seed : list Z) (n i : Z) :
  length seed = 32%nat -> n <= 2 ^ 40 -> 0 <= i < n ->
  exists u : Z,
    UnShuffledIndex HashSha256 ShuffleRoundCount i n seed = Ok u /\
    ShuffledIndex HashSha256 ShuffleRoundCount u n seed = Ok i.
Proof.
  intros Hs Hn Hi. unfold ShuffledIndex, UnShuffledIndex.
  rewrite innerShuffledIndex_spec by assumption.
  eexists. split; [reflexivity|].
  rewrite innerShuffledIndex_spec;
    [| assumption | assumption | apply apply_rounds_range; [lia | exact Hi]].
  f_equal. change false with (negb true). rewrite index_passes_rev.
  apply apply_rounds_rev_l. exact Hi.
Qed.

Lemma unshuffle_then_shuffle_witness :
  exists u : Z,
    UnShuffledIndex SHA256.Sum256 90 3 4 (repeat 0 32%nat) = Ok u /\
    ShuffledIndex SHA256.Sum256 90 u 4 (repeat 0 32%nat) = Ok 3.
Proof. apply unshuffle_then_shuffle; [reflexivity | lia | lia]. Defined.

(** X3: [ShuffledIndex] is a bijection of [[0, n)]: two different indices
    never shuffle to the same index, and every index below [n] is the
    shuffled index of one below [n]. *)
Theorem shuffled_index_bijective (HashSha256 : list Z -> list Z)
    (ShuffleRoundCount : Z) (seed : list Z) (n : Z) :
  length seed = 32%nat -> n <= 2 ^ 40 ->
  (forall i j k : Z,
      0 <= i < n -> 0 <= j < n ->
      ShuffledIndex HashSha256 ShuffleRoundCount i n seed = Ok k ->
      ShuffledIndex HashSha256 ShuffleRoundCount j n seed = Ok k ->
      i = j) /\
  (forall k : Z,
      0 <= k < n ->
      exists i : Z,
        0 <= i < n /\
        ShuffledIndex HashSha256 ShuffleRoundCount i n seed = Ok k).
Proof.
  intros Hs Hn. unfold ShuffledIndex. split.
  - intros i j k Hi Hj Ei Ej.
    rewrite innerShuffledIndex_spec in Ei, Ej by assumption.
    apply (apply_rounds_inj HashSha256 seed n
             (index_passes ShuffleRoundCount true)); [exact Hi | exact Hj |].
    congruence.
  - intros k Hk.
    exists (apply_rounds HashSha256 seed n
              (rev (index_passes ShuffleRoundCount true)) k).
    assert (Hr : 0 <= apply_rounds HashSha256 seed n
                        (rev (index_passes ShuffleRoundCount true)) k < n)
      by (apply apply_rounds_range; [lia | exact Hk]).
    split; [exact Hr|].
    rewrite innerShuffledIndex_spec by assumption.
    f_equal. apply apply_rounds_rev_l. exact Hk.
Qed.

Lemma shuffled_index_bijective_witness :
  (forall i j k : Z,
      0 <= i < 4 -> 0 <= j < 4 ->
      ShuffledIndex SHA256.Sum256 90 i 4 (repeat 0 32%nat) = Ok k ->
      ShuffledIndex SHA256.Sum256 90 j 4 (repeat 0 32%nat) = Ok k ->
      i = j) /\
  (forall k : Z,
      0 <= k < 4 ->
      exists i : Z,
        0 <= i < 4 /\
        ShuffledIndex SHA256.Sum256 90 i 4 (repeat 0 32%nat) = Ok k).
Proof. apply shuffled_index_bijective; [reflexivity | lia]. Defined.

(** X4: [innerShuffledIndex] never panics and its round loop always ends:
    for a 32-byte seed and any [uint64] index, index count and round count
    it returns a value or a [BoundsError]; the modulus is never zero and the
    [uint8] round counter meets its bound within 256 passes. *)
Theorem shuffled_index_no_panic (HashSha256 : list Z -> list Z)
    (ShuffleRoundCount : Z) (seed : list Z) (index indexCount : Z)
    (shuffle : bool) :
  length seed = 32%nat -> 0 <= index ->
  innerShuffledIndex HashSha256 ShuffleRoundCount index indexCount seed shuffle
  <> Panic /\
  innerShuffledIndex HashSha256 ShuffleRoundCount index indexCount seed shuffle
  <> OutOfFuel.
Proof.
  intros Hs Hi.
  destruct (decide (index < indexCount /\ indexCount <= 2 ^ 40)) as [[H1 H2]|Hb].
  - rewrite innerShuffledIndex_spec by (try assumption; lia).
    split; discriminate.
  - unfold innerShuffledIndex.
    destruct (ShuffleRoundCount =? 0); [split; discriminate|].
    destruct (indexCount <=? index) eqn:E1; [split; discriminate|].
    destruct (maxShuffleListSize <? indexCount) eqn:E2; [split; discriminate|].
    apply Z.leb_gt in E1. apply Z.ltb_ge in E2.
    unfold maxShuffleListSize in E2. lia.
Qed.

Lemma shuffled_index_no_panic_witness :
  innerShuffledIndex SHA256.Sum256 256 0 1 (repeat 0 32%nat) false <> Panic /\
  innerShuffledIndex SHA256.Sum256 256 0 1 (repeat 0 32%nat) false <> OutOfFuel.
Proof. apply shuffled_index_no_panic; [reflexivity | lia]. Defined.

(** X5: for any list of at most [2^40] elements and a round count that is
    zero or whose low byte is not zero, [ShuffleList] puts at position [i]
    the element that was at position [UnShuffledIndex(i, n, s)], and
    [UnshuffleList] the one that was at [ShuffledIndex(i, n, s)]. *)
Theorem shuffle_list_lookup (HashSha256 : list Z -> list Z)
    (ShuffleRoundCount : Z) (seed input : list Z) :
  length seed = 32%nat -> Z.of_nat (length input) <= 2 ^ 40 ->
  ShuffleRoundCount = 0 \/ wrap8 ShuffleRoundCount <> 0 ->
  exists out back : list Z,
    ShuffleList HashSha256 ShuffleRoundCount input seed = Ok out /\
    UnshuffleList HashSha256 ShuffleRoundCount input seed = Ok back /\
    forall i : nat, (i < length input)%nat ->
      exists u s : Z,
        UnShuffledIndex HashSha256 ShuffleRoundCount (Z.of_nat i)
          (Z.of_nat (length input)) seed = Ok u /\
        ShuffledIndex HashSha256 ShuffleRoundCount (Z.of_nat i)
          (Z.of_nat (length input)) seed = Ok s /\
        out !! i = input !! Z.to_nat u /\
        back !! i = input !! Z.to_nat s.
Proof.
  intros Hs Hn Hc. unfold ShuffleList, UnshuffleList.
  destruct (innerShuffleList_spec HashSha256 ShuffleRoundCount seed input true
              Hs Hn) as (out & HO & _ & HxO).
  destruct (innerShuffleList_spec HashSha256 ShuffleRoundCount seed input false
              Hs Hn) as (back & HB & _ & HxB).
  exists out, back. split; [exact HO|]. split; [exact HB|].
  intros i Hi. unfold UnShuffledIndex, ShuffledIndex.
  rewrite !innerShuffledIndex_spec by (try assumption; lia).
  eexists _, _. split; [reflexivity|]. split; [reflexivity|].
  rewrite (HxO i Hi), (HxB i Hi).
  rewrite !list_passes_index_passes by exact Hc.
  rewrite (index_passes_rev ShuffleRoundCount true : index_passes _ false = _).
  rewrite rev_involutive. split; reflexivity.
Qed.

Lemma shuffle_list_lookup_witness :
  exists out back : list Z,
    ShuffleList SHA256.Sum256 90 [10; 20; 30; 40] (repeat 0 32%nat) = Ok out /\
    UnshuffleList SHA256.Sum256 90 [10; 20; 30; 40] (repeat 0 32%nat) = Ok back /\
    forall i : nat, (i < length [10; 20; 30; 40])%nat ->
      exists u s : Z,
        UnShuffledIndex SHA256.Sum256 90 (Z.of_nat i)
          (Z.of_nat (length [10; 20; 30; 40])) (repeat 0 32%nat) = Ok u /\
        ShuffledIndex SHA256.Sum256 90 (Z.of_nat i)
          (Z.of_nat (length [10; 20; 30; 40])) (repeat 0 32%nat) = Ok s /\
        out !! i = [10; 20; 30; 40] !! Z.to_nat u /\
        back !! i = [10; 20; 30; 40] !! Z.to_nat s.
Proof.
  apply shuffle_list_lookup;
    [reflexivity | vm_compute; discriminate | right; vm_compute; discriminate].
Defined.

(** X6: on any list of at most [2^40] elements, whatever the round count,
    [ShuffleList] and [UnshuffleList] return without error or panic, and what
    they return is a permutation of the input: no element is lost or
    duplicated. *)
Theorem shuffle_list_permutation (HashSha256 : list Z -> list Z)
    (ShuffleRoundCount : Z) (seed input : list Z) :
  length seed = 32%nat -> Z.of_nat (length input) <= 2 ^ 40 ->
  exists out back : list Z,
    ShuffleList HashSha256 ShuffleRoundCount input seed = Ok out /\
    UnshuffleList HashSha256 ShuffleRoundCount input seed = Ok back /\
    out ≡ₚ input /\ back ≡ₚ input.
Proof.
  intros Hs Hn. unfold ShuffleList, UnshuffleList.
  destruct (innerShuffleList_spec HashSha256 ShuffleRoundCount seed input true
              Hs Hn) as (out & HO & HsO).
  destruct (innerShuffleList_spec HashSha256 ShuffleRoundCount seed input false
              Hs Hn) as (back & HB & HsB).
  exists out, back. split; [exact HO|]. split; [exact HB|].
  split; eapply list_rounds_spec_Permutation; eassumption.
Qed.

Lemma shuffle_list_permutation_witness :
  exists out back : list Z,
    ShuffleList SHA256.Sum256 90 [7; 7; 8; 9; 9] (repeat 0 32%nat) = Ok out /\
    UnshuffleList SHA256.Sum256 90 [7; 7; 8; 9; 9] (repeat 0 32%nat) = Ok back /\
    out ≡ₚ [7; 7; 8; 9; 9] /\ back ≡ₚ [7; 7; 8; 9; 9].
Proof.
  apply shuffle_list_permutation; [reflexivity | vm_compute; discriminate].
Defined.

(** X7: [UnshuffleList] undoes [ShuffleList] and [ShuffleList] undoes
    [UnshuffleList], on any list of at most [2^40] elements and for every
    round count. *)
Theorem shuffle_list_round_trip (HashSha256 : list Z -> list Z)
    (ShuffleRoundCount : Z) (seed input : list Z) :
  length seed = 32%nat -> Z.of_nat (length input) <= 2 ^ 40 ->
  exists out back : list Z,
    ShuffleList HashSha256 ShuffleRoundCount input seed = Ok out /\
    UnshuffleList HashSha256 ShuffleRoundCount out seed = Ok input /\
    UnshuffleList HashSha256 ShuffleRoundCount input seed = Ok back /\
    ShuffleList HashSha256 ShuffleRoundCount back seed = Ok input.
Proof.
  intros Hs Hn. unfold ShuffleList, UnshuffleList.
  destruct (innerShuffleList_spec HashSha256 ShuffleRoundCount seed input true
              Hs Hn) as (out & HO & HsO).
  destruct (innerShuffleList_spec HashSha256 ShuffleRoundCount seed input false
              Hs Hn) as (back & HB & HsB).
  assert (HlO : length out = length input) by (apply HsO).
  assert (HlB : length back = length input) by (apply HsB).
  destruct (innerShuffleList_spec HashSha256 ShuffleRoundCount seed out false
              Hs ltac:(lia)) as (out' & HO' & HsO').
  destruct (innerShuffleList_spec HashSha256 ShuffleRoundCount seed back true
              Hs ltac:(lia)) as (back' & HB' & HsB').
  exists out, back. split; [exact HO|]. split; [|split; [exact HB|]].
  - rewrite HO'. f_equal.
    change false with (negb true) in HsO'. rewrite list_passes_rev in HsO'.
    exact (list_rounds_spec_inverse _ _ _ _ _ _ HsO HsO').
  - rewrite HB'. f_equal.
    change true with (negb false) in HsB'. rewrite list_passes_rev in HsB'.
    exact (list_rounds_spec_inverse _ _ _ _ _ _ HsB HsB').
Qed.

Lemma shuffle_list_round_trip_witness :
  exists out back : list Z,
    ShuffleList SHA256.Sum256 90 [10; 20; 30; 40] (repeat 0 32%nat) = Ok out /\
    UnshuffleList SHA256.Sum256 90 out (repeat 0 32%nat) = Ok [10; 20; 30; 40] /\
    UnshuffleList SHA256.Sum256 90 [10; 20; 30; 40] (repeat 0 32%nat) = Ok back /\
    ShuffleList SHA256.Sum256 90 back (repeat 0 32%nat) = Ok [10; 20; 30; 40].
Proof.
  apply shuffle_list_round_trip; [reflexivity | vm_compute; discriminate].
Defined.

(** ** Sizes of the pieces *)

(** Consecutive exact offsets are [listSize / chunks] or one more apart. *)
Lemma exact_offset_step listSize chunks i :
  0 <= listSize -> 0 < chunks -> 0 <= i ->
  listSize / chunks
  <= exact_offset listSize chunks (i + 1) - exact_offset listSize chunks i
  <= listSize / chunks + 1 /\
  (listSize mod chunks = 0 ->
   exact_offset listSize chunks (i + 1) - exact_offset listSize chunks i
   = listSize / chunks).
Proof.
  intros Hl Hc Hi. unfold exact_offset.
  pose proof (Z.div_mod listSize chunks ltac:(lia)) as Hdm.
  pose proof (Z.mod_pos_bound listSize chunks Hc) as Hr.
  set (q := listSize / chunks) in *. set (r := listSize mod chunks) in *.
  assert (E1 : listSize * (i + 1) = (q * (i + 1)) * chunks + (r * i + r)) by nia.
  assert (E0 : listSize * i = (q * i) * chunks + r * i) by nia.
  rewrite E1, E0. rewrite !Z.div_add_l by lia.
  assert (Hri : 0 <= r * i) by nia.
  split.
  - pose proof (Z.div_le_mono (r * i) (r * i + r) chunks Hc ltac:(lia)).
    assert ((r * i + r) / chunks <= r * i / chunks + 1).
    { replace (r * i / chunks + 1) with ((r * i + 1 * chunks) / chunks)
        by (rewrite Z.div_add by lia; reflexivity).
      apply Z.div_le_mono; lia. }
    lia.
  - intros Hz. rewrite Hz. rewrite Z.mul_0_l, Z.add_0_l, Zdiv_0_l. lia.
Qed.

Lemma length_split_piece (l : list Z) chunks i :
  0 < chunks -> 0 <= i < chunks ->
  Z.of_nat (length (split_piece l chunks i))
  = exact_offset (Z.of_nat (length l)) chunks (i + 1)
    - exact_offset (Z.of_nat (length l)) chunks i.
Proof.
  intros Hc Hi. unfold split_piece.
  set (len := Z.of_nat (length l)).
  assert (Hlen : 0 <= len) by (unfold len; lia).
  pose proof (exact_offset_nonneg len chunks i Hlen Hc ltac:(lia)) as H0.
  pose proof (exact_offset_mono len chunks i (i + 1) Hlen Hc ltac:(lia)) as H1.
  pose proof (exact_offset_mono len chunks (i + 1) chunks Hlen Hc ltac:(lia)) as H2.
  rewrite exact_offset_full in H2 by exact Hc.
  rewrite length_take, length_drop. unfold len in *. lia.
Qed.

(** X8: while [|L| * k] does not overflow, the pieces [SplitIndices L k]
    returns are near-equal: each has [|L| / k] elements or one more, and
    exactly [|L| / k] when [k] divides [|L|]. *)
Theorem split_pieces_balanced (l : list Z) (n : Z) :
  0 < n < 2 ^ 64 -> Z.of_nat (length l) * n < 2 ^ 64 ->
  exists pieces : list (list Z),
    SplitIndices l n = Some pieces /\
    forall (i : nat) (piece : list Z),
      pieces !! i = Some piece ->
      Z.of_nat (length l) / n <= Z.of_nat (length piece)
      <= Z.of_nat (length l) / n + 1 /\
      (Z.of_nat (length l) mod n = 0 ->
       Z.of_nat (length piece) = Z.of_nat (length l) / n).
Proof.
  intros Hn Hb. unfold SplitIndices.
  rewrite (SplitIndices_loop_spec l n Hn Hb) by lia.
  eexists. split; [reflexivity|].
  intros i piece Hp. cbn [app] in Hp.
  rewrite list_lookup_fmap in Hp.
  destruct (seq 0 (Z.to_nat n) !! i) as [k|] eqn:Ek; [|discriminate Hp].
  apply lookup_seq in Ek as [-> Hk].
  cbn in Hp. injection Hp as <-.
  rewrite length_split_piece by lia.
  apply exact_offset_step; lia.
Qed.

Lemma split_pieces_balanced_witness :
  exists pieces : list (list Z),
    SplitIndices [10; 11; 12; 13; 14; 15; 16] 3 = Some pieces /\
    forall (i : nat) (piece : list Z),
      pieces !! i = Some piece ->
      Z.of_nat (length [10; 11; 12; 13; 14; 15; 16]) / 3
      <= Z.of_nat (length piece)
      <= Z.of_nat (length [10; 11; 12; 13; 14; 15; 16]) / 3 + 1 /\
      (Z.of_nat (length [10; 11; 12; 13; 14; 15; 16]) mod 3 = 0 ->
       Z.of_nat (length piece)
       = Z.of_nat (length [10; 11; 12; 13; 14; 15; 16]) / 3).
Proof.
  apply split_pieces_balanced; [split; reflexivity | reflexivity].
Defined.

(** X9: for [index <= chunks] the offset [SplitOffset] returns never exceeds
    [listSize], even when the product wraps; and while the products do not
    overflow the offsets grow with the index, from 0 at index 0 to
    [listSize] at index [chunks]. *)
Theorem split_offset_bounds (listSize chunks : Z) :
  0 <= listSize < 2 ^ 64 -> 0 < chunks ->
  (forall index : Z,
      0 <= index <= chunks ->
      exists o : Z,
        SplitOffset listSize chunks index = Some o /\ 0 <= o <= listSize) /\
  (listSize * chunks < 2 ^ 64 ->
   SplitOffset listSize chunks 0 = Some 0 /\
   SplitOffset listSize chunks chunks = Some listSize /\
   forall i j oi oj : Z,
     0 <= i <= j -> j <= chunks ->
     SplitOffset listSize chunks i = Some oi ->
     SplitOffset listSize chunks j = Some oj ->
     oi <= oj).
Proof.
  intros Hl Hc. split.
  - intros index Hi. unfold SplitOffset.
    destruct (chunks =? 0) eqn:E; [apply Z.eqb_eq in E; lia|].
    eexists. split; [reflexivity|].
    assert (Hp : 0 <= listSize * index) by nia.
    assert (Hw : 0 <= wrap64 (listSize * index) <= listSize * index).
    { unfold wrap64. split; [apply Z.mod_pos_bound; lia|].
      apply Z.mod_le; lia. }
    split; [apply Z.div_pos; lia|].
    apply Z.div_le_upper_bound; [lia|]. nia.
  - intros Hb.
    split; [rewrite SplitOffset_exact by lia; rewrite exact_offset_0; reflexivity|].
    split; [rewrite SplitOffset_exact by lia;
            rewrite exact_offset_full by lia; reflexivity|].
    intros i j oi oj Hij Hj Ei Ej.
    rewrite SplitOffset_exact in Ei, Ej by nia.
    injection Ei as <-. injection Ej as <-.
    apply exact_offset_mono; lia.
Qed.

Lemma split_offset_bounds_witness :
  (forall index : Z,
      0 <= index <= 98 ->
      exists o : Z, SplitOffset 323 98 index = Some o /\ 0 <= o <= 323) /\
  (323 * 98 < 2 ^ 64 ->
   SplitOffset 323 98 0 = Some 0 /\
   SplitOffset 323 98 98 = Some 323 /\
   forall i j oi oj : Z,
     0 <= i <= j -> j <= 98 ->
     SplitOffset 323 98 i = Some oi ->
     SplitOffset 323 98 j = Some oj ->
     oi <= oj).
Proof. apply split_offset_bounds; [split; [lia | reflexivity] | lia]. Defined.

(** ** Varints *)

(** A property of bytes that holds for each of the 256 holds for all. *)
Lemma byte_forall (P : Z -> bool) :
  forallb P (map Z.of_nat (seq 0 256)) = true ->
  forall y : Z, 0 <= y < 256 -> P y = true.
Proof.
  intros H y Hy. rewrite forallb_forall in H. apply H.
  apply in_map_iff. exists (Z.to_nat y). split; [lia|].
  apply in_seq. lia.
Qed.

Lemma continuation_byte x :
  0x80 <= Z.lor (wrap8 x) 0x80 < 256 /\
  Z.land (Z.lor (wrap8 x) 0x80) 0x7f = x mod 128.
Proof.
  pose proof (wrap8_range x) as Hw.
  pose proof (byte_forall
    (fun y => (0x80 <=? Z.lor y 0x80) && (Z.lor y 0x80 <? 256)
              && (Z.land (Z.lor y 0x80) 0x7f =? y mod 128))
    ltac:(vm_compute; reflexivity) (wrap8 x) Hw) as H.
  cbv beta in H. rewrite !andb_true_iff in H. destruct H as [[H1 H2] H3].
  apply Z.leb_le in H1. apply Z.ltb_lt in H2. apply Z.eqb_eq in H3.
  split; [lia|]. rewrite H3. unfold wrap8.
  change (2 ^ 8) with 256. Z.div_mod_to_equations. lia.
Qed.

(** Below [2^s] and at or above it, bits do not meet: or-ing is adding. *)
Lemma lor_shifted acc b s :
  0 <= s -> 0 <= acc < 2 ^ s -> 0 <= b ->
  Z.lor acc (b * 2 ^ s) = acc + b * 2 ^ s.
Proof.
  intros Hs Ha Hb.
  assert (Hl : Z.land acc (b * 2 ^ s) = 0).
  { apply Z.bits_inj'. intros n Hn. rewrite Z.land_spec, Z.bits_0.
    destruct (Z.lt_ge_cases n s) as [Hlt|Hge].
    - rewrite Z.mul_pow2_bits_low by lia. apply andb_false_r.
    - rewrite <- (Z.mod_small acc (2 ^ s)) by lia.
      rewrite Z.mod_pow2_bits_high by lia. reflexivity. }
  rewrite <- Z.lxor_lor by exact Hl.
  symmetry. apply Z.add_nocarry_lxor. exact Hl.
Qed.

Lemma PutUvarint_loop_spec (k : nat) :
  forall (fuel : nat) (buf : list Z) (x : Z) (i : nat),
    (1 <= k <= fuel)%nat -> 0 <= x < 2 ^ (7 * Z.of_nat k) ->
    (i + k <= length buf)%nat ->
    exists (buf' : list Z) (n : nat),
      PutUvarint_loop fuel buf x i = Some (buf', n) /\
      take n buf' = take i buf ++ uvarint_bytes k x.
Proof.
  induction k as [|k IH]; intros fuel buf x i Hk Hx Hi; [lia|].
  destruct fuel as [|fuel]; [lia|].
  cbn [PutUvarint_loop uvarint_bytes].
  destruct (decide (i < length buf)%nat) as [Hlt|Hge]; [|lia].
  destruct (0x80 <=? x) eqn:E.
  - apply Z.leb_le in E.
    assert (Hk1 : (1 <= k)%nat).
    { destruct k; [|lia]. change (2 ^ (7 * Z.of_nat 1)) with 128 in Hx. lia. }
    assert (Hx' : 0 <= Z.shiftr x 7 < 2 ^ (7 * Z.of_nat k)).
    { rewrite Z.shiftr_div_pow2 by lia. change (2 ^ 7) with 128.
      replace (7 * Z.of_nat (S k)) with (7 + 7 * Z.of_nat k) in Hx by lia.
      rewrite Z.pow_add_r in Hx by lia. change (2 ^ 7) with 128 in Hx.
      split; [apply Z.div_pos; lia|].
      apply Z.div_lt_upper_bound; lia. }
    destruct (IH fuel (<[i := Z.lor (wrap8 x) 0x80]> buf) (Z.shiftr x 7) (S i)
                ltac:(lia) Hx' ltac:(rewrite length_insert; lia))
      as (buf' & n & Hp & Ht).
    exists buf', n. split; [exact Hp|].
    rewrite Ht.
    rewrite (take_S_r _ _ (Z.lor (wrap8 x) 0x80))
      by (apply list_lookup_insert_eq; exact Hlt).
    rewrite take_insert_ge by lia.
    rewrite <- app_assoc. reflexivity.
  - eexists _, _. split; [reflexivity|].
    rewrite (take_S_r _ _ (wrap8 x))
      by (apply list_lookup_insert_eq; exact Hlt).
    rewrite take_insert_ge by lia. reflexivity.
Qed.

Lemma ReadUvarint_loop_spec (k : nat) :
  forall (fuel : nat) (x acc i : Z),
    (1 <= k <= fuel)%nat -> 0 <= i -> i + Z.of_nat fuel = 10 ->
    0 <= x < 2 ^ (7 * Z.of_nat k) ->
    0 <= acc < 2 ^ (7 * i) -> acc + x * 2 ^ (7 * i) < 2 ^ 64 ->
    ReadUvarint_loop fuel (uvarint_bytes k x) acc (7 * i) i
    = (acc + x * 2 ^ (7 * i), None).
Proof.
  induction k as [|k IH]; intros fuel x acc i Hk Hi Hf Hx Ha Hb; [lia|].
  destruct fuel as [|fuel]; [lia|].
  assert (Hpow : 0 < 2 ^ (7 * i)) by (apply Z.pow_pos_nonneg; lia).
  cbn [uvarint_bytes].
  destruct (0x80 <=? x) eqn:E.
  - apply Z.leb_le in E.
    destruct (continuation_byte x) as [Hcb Hland].
    cbn [ReadUvarint_loop].
    assert (E1 : (Z.lor (wrap8 x) 0x80 <? 0x80) = false) by (apply Z.ltb_ge; lia).
    rewrite E1, Hland.
    assert (Hk1 : (1 <= k)%nat).
    { destruct k; [|lia]. change (2 ^ (7 * Z.of_nat 1)) with 128 in Hx. lia. }
    pose proof (Z.div_mod x 128 ltac:(lia)) as Hdm.
    pose proof (Z.mod_pos_bound x 128 ltac:(lia)) as Hm.
    assert (Hq : 0 <= x / 128) by (apply Z.div_pos; lia).
    assert (Hp1 : 2 ^ (7 * (i + 1)) = 128 * 2 ^ (7 * i)).
    { replace (7 * (i + 1)) with (7 + 7 * i) by lia.
      rewrite Z.pow_add_r by lia. reflexivity. }
    rewrite Z.shiftl_mul_pow2 by lia.
    rewrite wrap64_small by nia.
    rewrite lor_shifted by lia.
    replace (7 * i + 7) with (7 * (i + 1)) by lia.
    rewrite IH.
    + rewrite Hp1, Z.shiftr_div_pow2 by lia. change (2 ^ 7) with 128.
      f_equal. nia.
    + lia.
    + lia.
    + lia.
    + rewrite Z.shiftr_div_pow2 by lia. change (2 ^ 7) with 128.
      replace (7 * Z.of_nat (S k)) with (7 + 7 * Z.of_nat k) in Hx by lia.
      rewrite Z.pow_add_r in Hx by lia. change (2 ^ 7) with 128 in Hx.
      split; [exact Hq|]. apply Z.div_lt_upper_bound; lia.
    + rewrite Hp1. nia.
    + rewrite Hp1, Z.shiftr_div_pow2 by lia. change (2 ^ 7) with 128. nia.
  - apply Z.leb_gt in E.
    rewrite wrap8_small by (change (2 ^ 8) with 256; lia).
    cbn [ReadUvarint_loop].
    assert (E1 : (x <? 0x80) = true) by (apply Z.ltb_lt; lia).
    rewrite E1.
    assert (E2 : ((i =? Z.of_nat MaxVarintLen64 - 1) && (1 <? x)) = false).
    { apply andb_false_iff.
      destruct (Z.eqb_spec i (Z.of_nat MaxVarintLen64 - 1)) as [->|Hne];
        [right|left; reflexivity].
      apply Z.ltb_ge. change (2 ^ (7 * (Z.of_nat MaxVarintLen64 - 1)))
        with (2 ^ 63) in *. lia. }
    rewrite E2.
    rewrite Z.shiftl_mul_pow2 by lia.
    rewrite wrap64_small by nia.
    rewrite lor_shifted by lia. reflexivity.
Qed.

(** Writing a [uint64] into a ten-byte buffer never runs out of room, and
    reading the bytes written gives the number back. *)
Lemma uvarint_round_trip (x : Z) :
  0 <= x < 2 ^ 64 ->
  exists (buf : list Z) (n : nat),
    PutUvarint (repeat 0 MaxVarintLen64) x = Some (buf, n) /\
    ReadUvarint (take n buf) = (x, None).
Proof.
  intros Hx. unfold PutUvarint.
  destruct (PutUvarint_loop_spec 10 (S (length (repeat 0 MaxVarintLen64)))
              (repeat 0 MaxVarintLen64) x 0)
    as (buf & n & Hp & Ht).
  - rewrite repeat_length. unfold MaxVarintLen64. lia.
  - change (2 ^ (7 * Z.of_nat 10)) with (2 ^ 70).
    assert (2 ^ 64 < 2 ^ 70) by reflexivity. lia.
  - rewrite repeat_length. unfold MaxVarintLen64. lia.
  - exists buf, n. split; [exact Hp|].
    rewrite Ht. unfold ReadUvarint.
    pose proof (ReadUvarint_loop_spec 10 MaxVarintLen64 x 0 0) as Hr.
    change (7 * 0) with 0 in Hr. change (2 ^ 0) with 1 in Hr.
    change (take 0 (repeat 0 MaxVarintLen64) ++ uvarint_bytes 10 x)
      with (uvarint_bytes 10 x).
    rewrite Hr; [f_equal; lia | unfold MaxVarintLen64; lia | lia | reflexivity
                | | lia | lia].
    change (2 ^ (7 * Z.of_nat 10)) with (2 ^ 70).
    assert (2 ^ 64 < 2 ^ 70) by reflexivity. lia.
Qed.

(** ** The validator index store *)

Lemma hasValidators_loop_all (Hash : list Z -> list Z)
    (bkt : gmap (list Z) (list Z)) (pubKeys : list (list Z)) (e : bool) :
  hasValidators_loop Hash bkt pubKeys true e
  = match pubKeys with
    | [] => e
    | _ => forallb (fun pk => bucket_has bkt (Hash pk)) pubKeys
    end.
Proof.
  revert e. induction pubKeys as [|pk rest IH]; intros e; [reflexivity|].
  cbn [hasValidators_loop forallb].
  destruct (bucket_has bkt (Hash pk)); cbn [negb andb]; [|reflexivity].
  rewrite IH. destruct rest; reflexivity.
Qed.

Lemma hasValidators_loop_any (Hash : list Z -> list Z)
    (bkt : gmap (list Z) (list Z)) (pubKeys : list (list Z)) (e : bool) :
  hasValidators_loop Hash bkt pubKeys false e
  = match pubKeys with
    | [] => e
    | _ => existsb (fun pk => bucket_has bkt (Hash pk)) pubKeys
    end.
Proof.
  revert e. induction pubKeys as [|pk rest IH]; intros e; [reflexivity|].
  cbn [hasValidators_loop existsb].
  destruct (bucket_has bkt (Hash pk)); cbn [negb andb orb]; [reflexivity|].
  rewrite IH. destruct rest; reflexivity.
Qed.

Lemma HasValidators_loop_any (Hash : list Z -> list Z) (db : BeaconDB)
    (pubKeys : list (list Z)) (e : bool) :
  HasValidators_loop Hash db pubKeys e
  = match pubKeys with
    | [] => e
    | _ => existsb (HasValidator Hash db) pubKeys
    end.
Proof.
  revert e. induction pubKeys as [|pk rest IH]; intros e; [reflexivity|].
  cbn [HasValidators_loop existsb]. unfold HasValidator at 1.
  destruct (bucket_has (validatorBucket db) (Hash pk)); cbn [orb]; [reflexivity|].
  rewrite IH. destruct rest; reflexivity.
Qed.

(** X10: an index saved under a public key is the index [ValidatorIndex]
    returns for that key, with no error: the varint written into the
    ten-byte buffer always fits and reads back as [uint64(index)], which is
    the index itself when that is not negative. *)
Theorem save_then_validator_index (Hash : list Z -> list Z) (db : BeaconDB)
    (pubKey : list Z) (index : Z) :
  - 2 ^ 63 <= index < 2 ^ 63 ->
  exists db' : BeaconDB,
    SaveValidatorIndex Hash db pubKey index = Some db' /\
    HasValidator Hash db' pubKey = true /\
    ValidatorIndex Hash db' pubKey = (wrap64 index, None) /\
    (0 <= index -> ValidatorIndex Hash db' pubKey = (index, None)).
Proof.
  intros Hi.
  assert (Hw : 0 <= wrap64 index < 2 ^ 64)
    by (unfold wrap64; apply Z.mod_pos_bound; reflexivity).
  destruct (uvarint_round_trip (wrap64 index) Hw) as (buf & n & Hp & Hr).
  unfold SaveValidatorIndex. rewrite Hp. cbn [mbind option_bind].
  eexists. split; [reflexivity|].
  assert (Hh : HasValidator Hash
                 (MkBeaconDB (<[Hash pubKey := take n buf]> (validatorBucket db)))
                 pubKey = true).
  { unfold HasValidator, bucket_has. cbn [validatorBucket].
    rewrite lookup_insert_eq. reflexivity. }
  assert (Hv : ValidatorIndex Hash
                 (MkBeaconDB (<[Hash pubKey := take n buf]> (validatorBucket db)))
                 pubKey = (wrap64 index, None)).
  { unfold ValidatorIndex. rewrite Hh. cbn [negb validatorBucket].
    rewrite lookup_insert_eq, Hr. reflexivity. }
  split; [exact Hh|]. split; [exact Hv|].
  intros H0. rewrite Hv. rewrite wrap64_small; [reflexivity|].
  assert (2 ^ 63 < 2 ^ 64) by reflexivity. lia.
Qed.

Lemma save_then_validator_index_witness :
  exists db' : BeaconDB,
    SaveValidatorIndex SHA256.Sum256 (MkBeaconDB ∅) [1; 2; 3] 300 = Some db' /\
    HasValidator SHA256.Sum256 db' [1; 2; 3] = true /\
    ValidatorIndex SHA256.Sum256 db' [1; 2; 3] = (wrap64 300, None) /\
    (0 <= 300 -> ValidatorIndex SHA256.Sum256 db' [1; 2; 3] = (300, None)).
Proof.
  apply save_then_validator_index. split; [vm_compute; discriminate | reflexivity].
Defined.



(** X12: [HasAllValidators] is false on an empty list of keys, and on a list
    that is not empty it is true exactly when every key is in the bucket. *)
Theorem has_all_validators (Hash : list Z -> list Z) (db : BeaconDB)
    (pubKeys : list (list Z)) :
  HasAllValidators Hash db pubKeys
  = match pubKeys with
    | [] => false
    | _ => forallb (HasValidator Hash db) pubKeys
    end.
Proof.
  unfold HasAllValidators, hasValidators.
  rewrite hasValidators_loop_all. reflexivity.
Qed.

(** X13: [HasAnyValidators] and [HasValidators], two loops with different
    breaks, return the same: true exactly when some key of the list is in
    the bucket, false on an empty list. *)
Theorem has_any_validators (Hash : list Z -> list Z) (db : BeaconDB)
    (pubKeys : list (list Z)) :
  HasAnyValidators Hash db pubKeys = existsb (HasValidator Hash db) pubKeys /\
  HasValidators Hash db pubKeys = existsb (HasValidator Hash db) pubKeys.
Proof.
  split.
  - unfold HasAnyValidators, hasValidators.
    rewrite hasValidators_loop_any. destruct pubKeys; reflexivity.
  - unfold HasValidators. rewrite HasValidators_loop_any.
    destruct pubKeys; reflexivity.
Qed.

(** ** The keys of the slasher store *)

Lemma FromBytes8_le_bytes (x : Z) :
  0 <= x < 2 ^ 64 -> FromBytes8 (le_bytes 8 x) = x.
Proof.
  intros Hx. unfold FromBytes8, le_bytes.
  cbn [seq map take fold_right Z.of_nat Pos.of_succ_nat Pos.succ Z.mul Pos.mul Pos.add].
  change 255 with (Z.ones 8). rewrite !Z.land_ones by lia.
  rewrite !Z.shiftr_div_pow2 by lia.
  change (2 ^ 64) with 18446744073709551616 in Hx.
  change (2 ^ 0) with 1. change (2 ^ 8) with 256. change (2 ^ 16) with 65536.
  change (2 ^ 24) with 16777216. change (2 ^ 32) with 4294967296.
  change (2 ^ 40) with 1099511627776. change (2 ^ 48) with 281474976710656.
  change (2 ^ 56) with 72057594037927936.
  Z.div_mod_to_equations. lia.
Qed.

Lemma le_bytes_8_inj (a b : Z) :
  0 <= a < 2 ^ 64 -> 0 <= b < 2 ^ 64 -> le_bytes 8 a = le_bytes 8 b -> a = b.
Proof.
  intros Ha Hb E.
  rewrite <- (FromBytes8_le_bytes a Ha), <- (FromBytes8_le_bytes b Hb), E.
  reflexivity.
Qed.

(** X14: the keys of the slasher store are unambiguous.  Whenever [Bytes8]
    returns eight bytes and tells [uint64] values apart, two keys built by
    [encodeEpochValidatorID], [encodeEpochValidatorIDSig], [encodeEpochSig]
    or [encodeSlotNumberRoot] are equal only if they were built from the
    same parts. *)
Theorem schema_keys_injective (Bytes8 : Z -> list Z) :
  (forall x : Z, length (Bytes8 x) = 8%nat) ->
  (forall a b : Z,
      0 <= a < 2 ^ 64 -> 0 <= b < 2 ^ 64 -> Bytes8 a = Bytes8 b -> a = b) ->
  forall (e v e' v' : Z) (sig sig' : list Z),
    0 <= e < 2 ^ 64 -> 0 <= v < 2 ^ 64 ->
    0 <= e' < 2 ^ 64 -> 0 <= v' < 2 ^ 64 ->
    (encodeEpochValidatorID Bytes8 e v = encodeEpochValidatorID Bytes8 e' v' ->
     e = e' /\ v = v') /\
    (encodeEpochValidatorIDSig Bytes8 e v sig
     = encodeEpochValidatorIDSig Bytes8 e' v' sig' ->
     e = e' /\ v = v' /\ sig = sig') /\
    (encodeEpochSig Bytes8 e sig = encodeEpochSig Bytes8 e' sig' ->
     e = e' /\ sig = sig') /\
    (encodeSlotNumberRoot Bytes8 e sig = encodeSlotNumberRoot Bytes8 e' sig' ->
     e = e' /\ sig = sig').
Proof.
  intros Hlen Hinj e v e' v' sig sig' He Hv He' Hv'.
  assert (Hpair : Bytes8 e ++ Bytes8 v = Bytes8 e' ++ Bytes8 v' ->
                  e = e' /\ v = v').
  { intros E. apply app_inj_1 in E as [E1 E2]; [|rewrite !Hlen; reflexivity].
    split; apply Hinj; assumption. }
  assert (Hone : Bytes8 e ++ sig = Bytes8 e' ++ sig' -> e = e' /\ sig = sig').
  { intros E. apply app_inj_1 in E as [E1 E2]; [|rewrite !Hlen; reflexivity].
    split; [apply Hinj; assumption | exact E2]. }
  split; [exact Hpair|]. split; [|split; [exact Hone | exact Hone]].
  unfold encodeEpochValidatorIDSig. intros E.
  apply app_inj_1 in E as [E1 E2];
    [|rewrite !length_app, !Hlen; reflexivity].
  destruct (Hpair E1) as [-> ->]. split; [reflexivity|]. split; [reflexivity|].
  exact E2.
Qed.

Lemma schema_keys_injective_witness :
  (encodeEpochValidatorID (le_bytes 8) 3 5
   = encodeEpochValidatorID (le_bytes 8) 3 5 ->
   3 = 3 /\ 5 = 5) /\
  (encodeEpochValidatorIDSig (le_bytes 8) 3 5 [7; 9]
   = encodeEpochValidatorIDSig (le_bytes 8) 3 5 [7; 9] ->
   3 = 3 /\ 5 = 5 /\ [7; 9] = [7; 9]) /\
  (encodeEpochSig (le_bytes 8) 3 [7; 9] = encodeEpochSig (le_bytes 8) 3 [7; 9] ->
   3 = 3 /\ [7; 9] = [7; 9]) /\
  (encodeSlotNumberRoot (le_bytes 8) 3 [7; 9]
   = encodeSlotNumberRoot (le_bytes 8) 3 [7; 9] ->
   3 = 3 /\ [7; 9] = [7; 9]).
Proof.
  apply (schema_keys_injective (le_bytes 8));
    [intros x; apply length_le_bytes | apply le_bytes_8_inj
    | lia | lia | lia | lia].
Defined.
